(** * PortScanner: a shallow embedding of [PortScanner.go]

    The development follows the source file top to bottom:
    - the scanner record, its constructor and setters;
    - the known-port table and [predictPort];
    - the network-facing operations ([IsOpen], [openConn],
      [PredictUsingPredictor], [getMySQLVersion], [DescribePort]) as
      programs over an explicit signature of network calls;
    - the concurrent sweep [GetOpenedPorts] as the interleavings of the
      steps of the main goroutine and of the workers, over the semaphore
      channel, the mutex, the wait group and the shared slice. *)

From stdpp Require Import base decidable numbers list gmap strings pretty sorting.
From Stdlib Require Import ZArith Lia Ascii.

Local Open Scope string_scope.
Local Open Scope list_scope.
Local Open Scope Z_scope.

(** ** Go data *)

(** Go's [int] is 64 bits wide on the platforms the scanner targets. *)
Definition min_int : Z := - 2 ^ 63.
Definition max_int : Z := 2 ^ 63 - 1.

Definition in_int (z : Z) : Prop := min_int ≤ z ≤ max_int.

(** Two's complement wrap-around of an [int] result. *)
Definition wrap_int (z : Z) : Z := (z + 2 ^ 63) `mod` 2 ^ 64 - 2 ^ 63.

(** A Go [string] is a sequence of bytes; [ascii] is exactly one byte. *)
Definition byte := ascii.

(** [string(b)] for a byte slice [b]: a plain copy, no validation. *)
Fixpoint string_of_bytes (b : list byte) : string :=
  match b with
  | [] => EmptyString
  | c :: r => String c (string_of_bytes r)
  end.

(** [len(s)] *)
Definition len (s : string) : nat := String.length s.

(** The zero byte a fresh [make([]byte, n)] is filled with. *)
Definition zero_byte : byte := Ascii.zero.

Definition make_bytes (n : nat) : list byte := replicate n zero_byte.

(** [time.Duration] counts nanoseconds. *)
Definition Duration := Z.
Definition Second : Duration := 1000000000.

Definition UNKNOWN : string := "<unknown>".

(** ** The known-port table

    [KNOWN_PORTS] is a package variable that the file initialises and never
    assigns. *)

Definition KNOWN_PORTS : gmap Z string :=
  list_to_map [
    (21, "FTP");
    (22, "SSH");
    (23, "Telnet");
    (25, "SMTP");
    (53, "DNS");
    (66, "Oracle SQL*NET?");
    (69, "TFTP");
    (80, "HTTP");
    (88, "Kerberos");
    (109, "POP2");
    (110, "POP3");
    (118, "SQL Service?");
    (123, "NTP");
    (137, "NetBIOS");
    (139, "NetBIOS");
    (143, "IMAP");
    (150, "SQL-Net?");
    (194, "IRC");
    (443, "HTTPS");
    (445, "Samba");
    (465, "SMTP over SSL");
    (554, "RTSP");
    (5800, "VNC Remote Desktop");
    (631, "CUPS");
    (993, "IMAP over SSL");
    (995, "POP3 over SSL");
    (1433, "Microsoft SQL Server");
    (1434, "Microsoft SQL Monitor");
    (3306, "MySQL");
    (3389, "Remote Desktop Protocol (RDP)");
    (3396, "Novell NDPS Printer Agent");
    (3535, "SMTP (Alternate)");
    (5432, "PostgreSQL");
    (6379, "Redis");
    (8080, "HTTP Alternate");
    (9160, "Cassandra");
    (9200, "Elasticsearch");
    (11211, "Memcached");
    (27017, "MongoDB");
    (28017, "MongoDB Web Admin")
  ].

(** [predictPort]: the receiver is not used by the body, only the table. *)
Definition predictPort (port : Z) : string :=
  match KNOWN_PORTS !! port with
  | Some desc => desc
  | None => UNKNOWN
  end.

Definition IsHttp (port : Z) : bool :=
  bool_decide (port = 80) || bool_decide (port = 8080).

(** ** The packages the file imports

    [Predictor] is the interface of the [predictors] package: a value of
    it is an interface value, a dynamic type together with a value of that
    type.  [Predictor_equal p q] is Go's [p == q] on two interface values:
    [Some b] when the comparison yields [b], and [None] when it panics,
    which it does when both hold the same dynamic type and that type is not
    comparable (a slice, a map, a function, or a struct with such a field).
    The comparison need not be reflexive: a struct value with a
    floating-point field holding NaN is not [==] to itself.
    [Predictor_eq_dec] is the identity of values in the embedding, used to
    count the entries of a registry; it is not the [==] of the program.
    [ApachePredictor] and [NginxPredictor] stand for the two pointers
    [NewPortScanner] installs.  [Conn] is [net.Conn] and [error] the error
    values of the [net] package. *)
Class Packages : Type := {
  Predictor : Type;
  Predictor_eq_dec :: EqDecision Predictor;
  Predictor_equal : Predictor → Predictor → option bool;
  ApachePredictor : Predictor;
  NginxPredictor : Predictor;
  Conn : Type;
  error : Type
}.

(** ** The scanner *)

Section Scanner.

Context `{Packages}.

Record PortScanner : Type := mkPortScanner {
  host : string;
  predictors : list Predictor;
  timeout : Duration;
  threads : Z;
  usePredictor : bool
}.

Definition NewPortScanner (h : string) (t : Duration) (n : Z) : PortScanner :=
  {| host := h;
     predictors := [ApachePredictor; NginxPredictor];
     timeout := t;
     threads := n;
     usePredictor := true |}.

(** Methods with a pointer receiver return the updated scanner. *)
Definition TogglePredictor (ps : PortScanner) (b : bool) : PortScanner :=
  {| host := host ps; predictors := predictors ps; timeout := timeout ps;
     threads := threads ps; usePredictor := b |}.

Definition SetThreads (ps : PortScanner) (n : Z) : PortScanner :=
  {| host := host ps; predictors := predictors ps; timeout := timeout ps;
     threads := n; usePredictor := usePredictor ps |}.

Definition SetTimeout (ps : PortScanner) (t : Duration) : PortScanner :=
  {| host := host ps; predictors := predictors ps; timeout := t;
     threads := threads ps; usePredictor := usePredictor ps |}.

(** The [for ... range] loop of [RegisterPredictor], entry by entry in the
    order of the slice: [Some true] when [p == predictor] holds for an entry
    and the early [return] is taken, [Some false] when the loop runs to its
    end, [None] when a comparison panics (the entries after it are not
    looked at). *)
Fixpoint registered (l : list Predictor) (predictor : Predictor) : option bool :=
  match l with
  | [] => Some false
  | p :: rest =>
      match Predictor_equal p predictor with
      | Some true => Some true
      | Some false => registered rest predictor
      | None => None
      end
  end.

(** A call of [RegisterPredictor]: the scanner it leaves, or [None] when the
    call panics. *)
Definition RegisterPredictor_call (ps : PortScanner) (predictor : Predictor) :
    option PortScanner :=
  match registered (predictors ps) predictor with
  | Some true => Some ps
  | Some false =>
      Some {| host := host ps; predictors := predictors ps ++ [predictor];
              timeout := timeout ps; threads := threads ps;
              usePredictor := usePredictor ps |}
  | None => None
  end.

(** The scanner after the call.  The only assignment of the body comes after
    the loop, so a call that panics leaves the scanner as it was. *)
Definition RegisterPredictor (ps : PortScanner) (predictor : Predictor) : PortScanner :=
  default ps (RegisterPredictor_call ps predictor).

(** The operations a client can apply to a scanner it holds. *)
Inductive op : Type :=
| OpTogglePredictor (b : bool)
| OpSetThreads (n : Z)
| OpSetTimeout (t : Duration)
| OpRegisterPredictor (p : Predictor).

Definition apply_op (ps : PortScanner) (o : op) : PortScanner :=
  match o with
  | OpTogglePredictor b => TogglePredictor ps b
  | OpSetThreads n => SetThreads ps n
  | OpSetTimeout t => SetTimeout ps t
  | OpRegisterPredictor p => RegisterPredictor ps p
  end.

(** The scanners a client can obtain: built by the constructor, then
    updated through the setters. *)
Inductive constructed : PortScanner → Prop :=
| constructed_new h t n : constructed (NewPortScanner h t n)
| constructed_op ps o : constructed ps → constructed (apply_op ps o).

(** [fmt.Sprintf("%s:%d", ps.host, port)] *)
Definition hostPort (ps : PortScanner) (port : Z) : string :=
  host ps +:+ ":" +:+ pretty port.


(** ** Network calls

    Everything the scanner asks of the outside world, as a signature of
    calls with the type of their answer:
    [net.ResolveTCPAddr] (answering [tcpAddr.String()] or an error),
    [net.DialTimeout], [conn.Close], [time.Now], [conn.SetDeadline] (its
    error is dropped by the caller), [conn.Read] on a buffer of the given
    length (answering the bytes delivered and the error, if any), and the
    [Predict] method of a predictor. *)
Inductive netE : Type → Type :=
| ResolveTCPAddr (network address : string) : netE (string + error)
| DialTimeout (network address : string) (t : Duration) : netE (Conn + error)
| Close (c : Conn) : netE unit
| Now : netE Z
| SetDeadline (c : Conn) (t : Z) : netE unit
| Read (c : Conn) (buflen : nat) : netE (list byte * option error)
| Predict (p : Predictor) (hostport : string) : netE string.

(** A program is a tree of network calls ending in a result; a program
    that performs no call is a bare [Ret]. *)
Inductive prog (R : Type) : Type :=
| Ret (r : R)
| Vis {X : Type} (e : netE X) (k : X → prog R).
Arguments Ret {R} r.
Arguments Vis {R X} e k.

Fixpoint bind {R S : Type} (m : prog R) (f : R → prog S) : prog S :=
  match m with
  | Ret r => f r
  | Vis e k => Vis e (λ x, bind (k x) f)
  end.

#[global] Instance prog_ret : MRet prog := λ R r, Ret r.
#[global] Instance prog_bind : MBind prog := λ R S f m, bind m f.

Definition trigger {X : Type} (e : netE X) : prog X := Vis e Ret.

(** [conn.Read(buf)] overwrites the first [n] bytes of [buf], never more
    than [len(buf)], and leaves the rest as it was. *)
Definition fill (buf data : list byte) : list byte :=
  take (length buf) data ++ drop (length data) buf.

(** Deferred [conn.Close()] calls run when the function returns, last
    deferred first; the list holds the most recent one at its head. *)
Fixpoint run_deferred (deferred : list Conn) : prog unit :=
  match deferred with
  | [] => mret ()
  | conn :: rest => _ ← trigger (Close conn); run_deferred rest
  end.

Definition IsOpen (ps : PortScanner) (port : Z) : prog bool :=
  let address := hostPort ps port in
  r ← trigger (DialTimeout "tcp" address (timeout ps));
  match r with
  | inr _ => mret false
  | inl conn => _ ← trigger (Close conn); mret true
  end.

Definition openConn (ps : PortScanner) (hostport : string) : prog (Conn + error) :=
  r ← trigger (ResolveTCPAddr "tcp4" hostport);
  match r with
  | inr err => mret (inr err)
  | inl tcpAddr => trigger (DialTimeout "tcp" tcpAddr (timeout ps))
  end.

(** The loop of [PredictUsingPredictor] over the remaining predictors,
    with the connections whose [Close] is deferred so far. *)
Fixpoint predict_loop (ps : PortScanner) (hostport : string)
    (l : list Predictor) (deferred : list Conn) : prog string :=
  match l with
  | [] => _ ← run_deferred deferred; mret UNKNOWN
  | predictor :: rest =>
      r ← openConn ps hostport;
      match r with
      | inr _ => predict_loop ps hostport rest deferred
      | inl conn =>
          result ← trigger (Predict predictor hostport);
          if bool_decide (0 < len result)%nat
          then _ ← run_deferred (conn :: deferred); mret result
          else predict_loop ps hostport rest (conn :: deferred)
      end
  end.

Definition PredictUsingPredictor (ps : PortScanner) (hostport : string) : prog string :=
  predict_loop ps hostport (predictors ps) [].

Definition getMySQLVersion (ps : PortScanner) (port : Z) (assumed : string) : prog string :=
  r ← openConn ps (hostPort ps port);
  match r with
  | inr _ => mret assumed
  | inl conn =>
      now ← trigger Now;
      _ ← trigger (SetDeadline conn (now + 3 * Second));
      let result := make_bytes 20 in
      rd ← trigger (Read conn (length result));
      let result := fill result rd.1 in
      match rd.2 with
      | None =>
          _ ← run_deferred [conn];
          mret (assumed +:+ " version: " +:+ string_of_bytes result)
      | Some _ => _ ← run_deferred [conn]; mret assumed
      end
  end.

Definition DescribePort (ps : PortScanner) (port : Z) : prog string :=
  if negb (usePredictor ps) then mret (predictPort port)
  else if IsHttp port then PredictUsingPredictor ps (hostPort ps port)
  else
    let assumed := predictPort port in
    description ←
      (if decide (assumed = UNKNOWN)
       then PredictUsingPredictor ps (hostPort ps port)
       else mret assumed);
    if decide (assumed = "MySQL")
    then getMySQLVersion ps port assumed
    else mret description.

(** *** Running a program against an environment

    The environment answers each call from its current state; [run] also
    records the calls made, in order. *)
Definition handler (W : Type) : Type := ∀ X : Type, netE X → W → X * W.

Definition call : Type := sigT netE.

Definition result_of {W R : Type} (o : R * W * list call) : R := o.1.1.
Definition world_of {W R : Type} (o : R * W * list call) : W := o.1.2.
Definition trace_of {W R : Type} (o : R * W * list call) : list call := o.2.

Fixpoint run {W R : Type} (h : handler W) (m : prog R) (w : W) : R * W * list call :=
  match m with
  | Ret r => (r, w, [])
  | Vis e k =>
      let answer := h _ e w in
      let rest := run h (k answer.1) answer.2 in
      (result_of rest, world_of rest, existT _ e :: trace_of rest)
  end.


(** ** The sweep: [GetOpenedPorts]

    The function runs one main goroutine and one worker goroutine per
    port; they share the semaphore channel [sem], the mutex [mu], the wait
    group [wg] and the slice [openPorts].  The program has no data race
    (every access to [openPorts] by a worker is under [mu], and the main
    goroutine reads it after [wg.Wait]), so its executions are the
    interleavings of the steps below. *)

(** Where the main goroutine stands. *)
Inductive main_pc : Type :=
| MMake                     (* at [sem := make(chan struct{}, ps.threads)] *)
| MLoop (port : Z)          (* at the loop test [port <= end] *)
| MSend (port : Z)          (* at [sem <- struct{}{}] *)
| MAdd (port : Z)           (* at [wg.Add(1)] *)
| MGo (port : Z)            (* at [go func(port)], followed by [port++] *)
| MWait                     (* at [wg.Wait()] *)
| MReturn (open : list Z)   (* returned [openPorts] *)
| MPanic.                   (* the program has panicked *)

(** Where a worker stands; [WRecv], [WDone] and [WExit] remember what
    [ps.IsOpen(port)] returned. *)
Inductive worker_pc : Type :=
| WStart                    (* created, at the call [ps.IsOpen(port)] *)
| WDial                     (* inside [IsOpen]: [net.DialTimeout] outstanding *)
| WClose                    (* inside [IsOpen]: connected, at [conn.Close()] *)
| WLock                     (* [IsOpen] returned true, at [mu.Lock()] *)
| WLocked                   (* holds [mu], at the evaluation of [append(openPorts, port)] *)
| WStore (l : list Z)       (* holds [mu], at the assignment [openPorts = l] *)
| WUnlock                   (* at [mu.Unlock()] *)
| WRecv (isOpen : bool)     (* at [<-sem] *)
| WDone (isOpen : bool)     (* at the deferred [wg.Done()] *)
| WExit (isOpen : bool).    (* finished *)

Record state : Type := State {
  main : main_pc;
  workers : list (Z * worker_pc);   (* each with its [port] argument *)
  sem : nat;                        (* number of elements buffered in [sem] *)
  mu : bool;                        (* [mu] is locked *)
  wg : Z;                           (* the counter of [wg] *)
  openPorts : list Z
}.

Definition initial : state :=
  {| main := MMake; workers := []; sem := 0; mu := false; wg := 0; openPorts := [] |}.

(** One step of the main goroutine; [None] when it is blocked or done. *)
Definition main_step (ps : PortScanner) (start end_ : Z) (st : state) : option state :=
  let 'State m ws s k g ops := st in
  match m with
  | MMake =>
      if decide (threads ps < 0) then Some (State MPanic ws s k g ops)
      else Some (State (MLoop start) ws s k g ops)
  | MLoop port =>
      if decide (port ≤ end_) then Some (State (MSend port) ws s k g ops)
      else Some (State MWait ws s k g ops)
  | MSend port =>
      if decide (Z.of_nat s < threads ps) then Some (State (MAdd port) ws (S s) k g ops)
      else None
  | MAdd port => Some (State (MGo port) ws s k (g + 1) ops)
  | MGo port => Some (State (MLoop (wrap_int (port + 1))) (ws ++ [(port, WStart)]) s k g ops)
  | MWait => if decide (g = 0) then Some (State (MReturn ops) ws s k g ops) else None
  | MReturn _ => None
  | MPanic => None
  end.

(** One step of worker [i]; [ok] is the outcome of the dial, used when the
    worker is waiting for it.  [None] when the worker does not exist, is
    blocked, has finished, or the program has panicked. *)
Definition worker_step (i : nat) (ok : bool) (st : state) : option state :=
  let 'State m ws s k g ops := st in
  match m with
  | MPanic => None
  | _ =>
    match ws !! i with
    | None => None
    | Some (port, pc) =>
        let at_ pc' := <[i := (port, pc')]> ws in
        match pc with
        | WStart => Some (State m (at_ WDial) s k g ops)
        | WDial =>
            if ok then Some (State m (at_ WClose) s k g ops)
            else Some (State m (at_ (WRecv false)) s k g ops)
        | WClose => Some (State m (at_ WLock) s k g ops)
        | WLock => if k then None else Some (State m (at_ WLocked) s true g ops)
        | WLocked => Some (State m (at_ (WStore (ops ++ [port]))) s k g ops)
        | WStore l => Some (State m (at_ WUnlock) s k g l)
        | WUnlock =>
            if k then Some (State m (at_ (WRecv true)) s false g ops)
            else Some (State MPanic ws s k g ops)
        | WRecv b =>
            match s with
            | O => None
            | S s' => Some (State m (at_ (WDone b)) s' k g ops)
            end
        | WDone b =>
            if decide (0 < g) then Some (State m (at_ (WExit b)) s k (g - 1) ops)
            else Some (State MPanic ws s k g ops)
        | WExit _ => None
        end
    end
  end.

(** On an unbuffered channel ([ps.threads = 0]) a send and a receive
    complete together. *)
Definition rendezvous (ps : PortScanner) (i : nat) (st : state) : option state :=
  let 'State m ws s k g ops := st in
  match m, ws !! i with
  | MSend port, Some (p, WRecv b) =>
      if decide (threads ps = 0)
      then Some (State (MAdd port) (<[i := (p, WDone b)]> ws) s k g ops)
      else None
  | _, _ => None
  end.

(** What the scheduler and the network decide at each step. *)
Inductive choice : Type :=
| RunMain
| RunWorker (i : nat) (ok : bool)
| Rendezvous (i : nat).

Definition next (ps : PortScanner) (start end_ : Z) (c : choice) (st : state) : option state :=
  match c with
  | RunMain => main_step ps start end_ st
  | RunWorker i ok => worker_step i ok st
  | Rendezvous i => rendezvous ps i st
  end.

Fixpoint exec (ps : PortScanner) (start end_ : Z) (sched : list choice) (st : state) : option state :=
  match sched with
  | [] => Some st
  | c :: rest =>
      match next ps start end_ c st with
      | Some st' => exec ps start end_ rest st'
      | None => None
      end
  end.

(** The states of [GetOpenedPorts(start, end)] under some schedule. *)
Definition reachable (ps : PortScanner) (start end_ : Z) (st : state) : Prop :=
  ∃ sched, exec ps start end_ sched initial = Some st.

(** *** The probes of a sweep

    A probe is the dial [IsOpen] makes in a worker.  The step a worker
    takes while it waits for [net.DialTimeout] is the answer to its dial:
    the port dialled and whether a connection was obtained. *)
Definition dial_of (c : choice) (st : state) : option (Z * bool) :=
  match c with
  | RunWorker i ok =>
      match workers st !! i with
      | Some (port, WDial) => Some (port, ok)
      | _ => None
      end
  | _ => None
  end.

(** The dials answered along a schedule run from [st], in the order of
    the answers. *)
Fixpoint dials (ps : PortScanner) (start end_ : Z) (sched : list choice) (st : state) :
    list (Z * bool) :=
  match sched with
  | [] => []
  | c :: rest =>
      match next ps start end_ c st with
      | Some st' => option_list (dial_of c st) ++ dials ps start end_ rest st'
      | None => []
      end
  end.

(** What a worker holds of its dial: nothing until the answer has come,
    then the answer, which is the value [IsOpen] returns. *)
Definition dialled (pc : worker_pc) : option bool :=
  match pc with
  | WStart | WDial => None
  | WClose | WLock | WLocked | WStore _ | WUnlock => Some true
  | WRecv b | WDone b | WExit b => Some b
  end.

(** The ports whose dial has been answered, with the answers, in the
    order of the workers. *)
Definition answered (ws : list (Z * worker_pc)) : list (Z * bool) :=
  omap (λ w, pair w.1 <$> dialled w.2) ws.

(** Counting workers by where they stand. *)
Fixpoint count (f : worker_pc → bool) (ws : list (Z * worker_pc)) : nat :=
  match ws with
  | [] => 0
  | w :: rest => ((if f w.2 then 1 else 0) + count f rest)%nat
  end.

(** The worker has taken a slot of [sem] and not given it back. *)
Definition holds_slot (pc : worker_pc) : bool :=
  match pc with
  | WDone _ | WExit _ => false
  | _ => true
  end.

(** The worker is inside [IsOpen]: its connection attempt is in flight. *)
Definition probing (pc : worker_pc) : bool :=
  match pc with
  | WDial | WClose => true
  | _ => false
  end.

(** [IsOpen] has returned in the worker. *)
Definition probed (pc : worker_pc) : bool :=
  match pc with
  | WStart | WDial | WClose => false
  | _ => true
  end.

Definition in_critical (pc : worker_pc) : bool :=
  match pc with
  | WLocked | WStore _ | WUnlock => true
  | _ => false
  end.

Definition running (pc : worker_pc) : bool :=
  match pc with
  | WExit _ => false
  | _ => true
  end.

(** The worker has stored its port into [openPorts]. *)
Definition appended (pc : worker_pc) : bool :=
  match pc with
  | WUnlock | WRecv true | WDone true | WExit true => true
  | _ => false
  end.

Definition in_flight (st : state) : nat := count probing (workers st).
Definition slots_taken (st : state) : nat := count holds_slot (workers st).


(** *** Invariants of the sweep *)

(** A slot of [sem] taken by the main goroutine for a worker it has not
    created yet. *)
Definition pending (m : main_pc) : nat :=
  match m with
  | MAdd _ | MGo _ => 1%nat
  | _ => 0%nat
  end.

(** A worker counted by [wg.Add(1)] and not created yet. *)
Definition announced (m : main_pc) : Z :=
  match m with
  | MGo _ => 1
  | _ => 0
  end.

(** The synchronisation objects count the workers: every element of [sem]
    belongs to a worker that has not received from it (or to the one about
    to be created), [sem] is never over its capacity, [wg] counts the
    workers that have not finished, and [mu] is locked exactly while one
    worker is between [Lock] and [Unlock]. *)
Definition sync_ok (ps : PortScanner) (st : state) : Prop :=
  sem st = (count holds_slot (workers st) + pending (main st))%nat
  ∧ Z.of_nat (sem st) ≤ Z.max 0 (threads ps)
  ∧ wg st = Z.of_nat (count running (workers st)) + announced (main st)
  ∧ Nat.b2n (mu st) = count in_critical (workers st).

(** Worker [i] was created for port [start + i]; the main goroutine is at
    the port after the last one it created a worker for, and has left the
    loop only past [end]; [openPorts] holds, once each, the ports of the
    workers that have stored theirs; a worker about to assign
    [openPorts] has computed the value from the current slice. *)
Definition ports_ok (start end_ : Z) (st : state) : Prop :=
  (∀ i p pc, workers st !! i = Some (p, pc) → p = start + Z.of_nat i)
  ∧ (workers st ≠ [] → start + Z.of_nat (length (workers st)) ≤ end_ + 1)
  ∧ match main st with
    | MMake => workers st = [] ∧ openPorts st = []
    | MLoop p => p = start + Z.of_nat (length (workers st))
    | MSend p | MAdd p | MGo p =>
        p = start + Z.of_nat (length (workers st)) ∧ p ≤ end_
    | MWait => end_ < start + Z.of_nat (length (workers st))
    | MReturn r =>
        end_ < start + Z.of_nat (length (workers st))
        ∧ r = openPorts st ∧ count running (workers st) = 0%nat
    | MPanic => True
    end
  ∧ NoDup (openPorts st)
  ∧ (∀ x, x ∈ openPorts st ↔
          ∃ i pc, workers st !! i = Some (x, pc) ∧ appended pc = true)
  ∧ (∀ i p l, workers st !! i = Some (p, WStore l) → l = openPorts st ++ [p]).

(** With [end] the largest [int], the loop test never fails. *)
Definition never_leaves_loop (st : state) : Prop :=
  match main st with
  | MLoop p | MSend p | MAdd p | MGo p => p ≤ max_int
  | MWait | MReturn _ => False
  | MMake | MPanic => True
  end.

(** *** A bound on the steps left

    Steps a worker has left, and steps the main goroutine has left counting
    those of the workers it will still create. *)
Definition worker_weight (pc : worker_pc) : nat :=
  match pc with
  | WStart => 9
  | WDial => 8
  | WClose => 7
  | WLock => 6
  | WLocked => 5
  | WStore _ => 4
  | WUnlock => 3
  | WRecv _ => 2
  | WDone _ => 1
  | WExit _ => 0
  end.

Fixpoint weight (ws : list (Z * worker_pc)) : nat :=
  match ws with
  | [] => 0
  | w :: rest => (worker_weight w.2 + weight rest)%nat
  end.

(** Ports from [p] to [end], inclusive. *)
Definition remaining (end_ p : Z) : nat := Z.to_nat (end_ - p + 1).

Definition main_weight (start end_ : Z) (m : main_pc) : nat :=
  match m with
  | MMake => 14 * remaining end_ start + 3
  | MLoop p => 14 * remaining end_ p + 2
  | MSend p => 14 * remaining end_ p + 1
  | MAdd p => 14 * remaining end_ p
  | MGo p => 14 * remaining end_ p - 1
  | MWait => 1
  | MReturn _ => 0
  | MPanic => 0
  end%nat.

Definition steps_left (start end_ : Z) (st : state) : nat :=
  (main_weight start end_ (main st) + weight (workers st))%nat.

(** ** What the specification says, for comparison with the code *)

(** The known-port table as the specification lists it. *)
Definition spec_table : list (Z * string) :=
  [ (21, "FTP"); (22, "SSH"); (23, "Telnet"); (25, "SMTP"); (53, "DNS");
    (66, "Oracle SQL*NET?"); (69, "TFTP"); (80, "HTTP"); (88, "Kerberos");
    (109, "POP2"); (110, "POP3"); (118, "SQL Service?"); (123, "NTP");
    (137, "NetBIOS"); (139, "NetBIOS"); (143, "IMAP"); (150, "SQL-Net?");
    (194, "IRC"); (443, "HTTPS"); (445, "Samba"); (465, "SMTP over SSL");
    (554, "RTSP"); (5800, "VNC Remote Desktop"); (631, "CUPS");
    (993, "IMAP over SSL"); (995, "POP3 over SSL");
    (1433, "Microsoft SQL Server"); (1434, "Microsoft SQL Monitor");
    (3306, "MySQL"); (3389, "Remote Desktop Protocol (RDP)");
    (3396, "Novell NDPS Printer Agent"); (3535, "SMTP (Alternate)");
    (5432, "PostgreSQL"); (6379, "Redis"); (8080, "HTTP Alternate");
    (9160, "Cassandra"); (9200, "Elasticsearch"); (11211, "Memcached");
    (27017, "MongoDB"); (28017, "MongoDB Web Admin") ].

(** The label the specification assigns to a port: the entry of its table,
    the unknown sentinel for a port the table does not list. *)
Fixpoint spec_label (table : list (Z * string)) (port : Z) : string :=
  match table with
  | [] => UNKNOWN
  | (p, l) :: rest => if decide (p = port) then l else spec_label rest port
  end.

(** The predictors whose [Predict] was called, in the order of the calls. *)
Definition predict_call (c : call) : option Predictor :=
  match c with
  | existT _ (Predict p _) => Some p
  | _ => None
  end.

Definition predict_calls (tr : list call) : list Predictor :=
  omap predict_call tr.

(** The predictor chain as the specification words it: predictors are
    tried in registration order; one whose connection attempt fails is
    skipped; the first non-empty result wins and ends the evaluation; the
    unknown sentinel is the result when none is left.  The second component
    lists the predictors that were asked. *)
Fixpoint chain_spec {W : Type} (h : handler W) (ps : PortScanner)
    (hostport : string) (l : list Predictor) (w : W) : string * list Predictor :=
  match l with
  | [] => (UNKNOWN, [])
  | p :: rest =>
      let attempt := run h (openConn ps hostport) w in
      match result_of attempt with
      | inr _ => chain_spec h ps hostport rest (world_of attempt)
      | inl _ =>
          let answer := h _ (Predict p hostport) (world_of attempt) in
          if decide (answer.1 = "") then
            let later := chain_spec h ps hostport rest answer.2 in
            (later.1, p :: later.2)
          else (answer.1, [p])
      end
  end.

(** The follow-up result as the specification words it: the guess, then
    [" version: "], then the bytes that were read. *)
Definition mysql_label_spec (guess : string) (bytes_read : list byte) : string :=
  guess +:+ " version: " +:+ string_of_bytes bytes_read.

(** The invariant the specification puts on the concurrency limit. *)
Definition limit_positive (ps : PortScanner) : Prop := 1 ≤ threads ps.

(** ** Calls with their answers

    [events] replays a program like [run] and keeps, for every call, the
    answer the environment gave. *)
Definition event : Type := {X : Type & (netE X * X)%type}.

Fixpoint events {W R : Type} (h : handler W) (m : prog R) (w : W) : list event :=
  match m with
  | Ret _ => []
  | Vis e k =>
      let answer := h _ e w in
      existT _ (e, answer.1) :: events h (k answer.1) answer.2
  end.

(** The connection a successful [net.DialTimeout] handed out. *)
Definition opened_conn (ev : event) : option Conn :=
  match ev with
  | existT _ (e, x) =>
      match e in netE X return X → option Conn with
      | DialTimeout _ _ _ => λ x, match x with inl c => Some c | inr _ => None end
      | _ => λ _, None
      end x
  end.

(** The connection a [conn.Close()] was called on. *)
Definition closed_conn (ev : event) : option Conn :=
  match ev with
  | existT _ (Close c, _) => Some c
  | _ => None
  end.

(** The event of a [conn.Close()] on [c]. *)
Definition close_event (c : Conn) : event := existT _ (Close c, ()).

Definition opened (evs : list event) : list Conn := omap opened_conn evs.
Definition closed (evs : list event) : list Conn := omap closed_conn evs.

Definition is_close (ev : event) : bool :=
  match closed_conn ev with
  | Some _ => true
  | None => false
  end.

(** The timeouts handed to [net.DialTimeout], the addresses handed to
    [net.ResolveTCPAddr], and the predictors asked, in the order of the
    calls. *)
Definition dial_timeout (ev : event) : option Duration :=
  match ev with
  | existT _ (DialTimeout _ _ t, _) => Some t
  | _ => None
  end.

Definition resolved_address (ev : event) : option string :=
  match ev with
  | existT _ (ResolveTCPAddr _ address, _) => Some address
  | _ => None
  end.

Definition asked (ev : event) : option Predictor :=
  match ev with
  | existT _ (Predict p _, _) => Some p
  | _ => None
  end.

(** What a [conn.Read] delivered: the bytes and the error, if any. *)
Definition read_outcome (ev : event) : option (list byte * option error) :=
  match ev with
  | existT _ (e, x) =>
      match e in netE X return X → option (list byte * option error) with
      | Read _ _ => λ x, Some x
      | _ => λ _, None
      end x
  end.

Definition dial_timeouts (evs : list event) : list Duration := omap dial_timeout evs.
Definition resolved (evs : list event) : list string := omap resolved_address evs.
Definition predictors_asked (evs : list event) : list Predictor := omap asked evs.

(** The environment refuses every connection: whatever its state, an
    [openConn] on the address fails. *)
Definition unreachable {W : Type} (h : handler W) (ps : PortScanner) (hostport : string) : Prop :=
  ∀ w, ∃ err, result_of (run h (openConn ps hostport) w) = inr err.

(** *** More invariants of the sweep *)

(** Only the worker created last can hold a slot of [sem]. *)
Definition last_holds (st : state) : Prop :=
  ∀ i p pc, workers st !! i = Some (p, pc) → holds_slot pc = true →
    S i = length (workers st).

(** [openPorts] is in strictly ascending order. *)
Definition ascending (l : list Z) : Prop := StronglySorted Z.lt l.

End Scanner.

Arguments Ret {_ R} r.
Arguments Vis {_ R X} e k.

(** ** A concrete environment

    Predictors of several kinds, connections numbered in the order they
    are opened, and a network that answers from a fixed script. *)
Module Example.

Inductive predictor : Type :=
| Apache
| Nginx
| Custom (n : nat)
| Scored (score : option Z)
| Rules (rules : list string).

#[export] Instance predictor_eq_dec : EqDecision predictor.
Proof. solve_decision. Defined.

(** Go's [==] on these interface values.  [Apache], [Nginx] and [Custom n]
    are pointers, equal when they are the same pointer.  [Scored] is a
    struct type with one [float64] field, registered by value: two of them
    are equal when the fields are, and a NaN (the score [None]) is equal to
    nothing.  [Rules] is a slice type with a [Predict] method: comparing two
    of them panics.  Values of different dynamic types are not equal. *)
Definition equal (p q : predictor) : option bool :=
  match p, q with
  | Apache, Apache | Nginx, Nginx => Some true
  | Custom n, Custom m => Some (bool_decide (n = m))
  | Scored (Some x), Scored (Some y) => Some (bool_decide (x = y))
  | Scored _, Scored _ => Some false
  | Rules _, Rules _ => None
  | _, _ => Some false
  end.

Definition packages : Packages :=
  {| Predictor := predictor;
     Predictor_equal := equal;
     ApachePredictor := Apache;
     NginxPredictor := Nginx;
     Conn := nat;
     error := string |}.

(** The script: whether dials succeed, what a read delivers, what each
    predictor answers. *)
Record script : Type := Script {
  dial_ok : bool;
  read_answer : list byte * option string;
  predict_answer : predictor → string
}.

(** The state of the network is the number of connections opened so far. *)
Definition network (sc : script) : handler (H := packages) nat :=
  λ X e,
    match e in netE X return nat → X * nat with
    | ResolveTCPAddr _ address => λ w, (inl address, w)
    | DialTimeout _ _ _ =>
        λ w, if dial_ok sc then (inl w, S w) else (inr "connection refused", w)
    | Close _ => λ w, ((), w)
    | Now => λ w, (0, w)
    | SetDeadline _ _ => λ w, ((), w)
    | Read _ _ => λ w, (read_answer sc, w)
    | Predict p _ => λ w, (predict_answer sc p, w)
    end.

Definition bytes_of (s : string) : list byte := String.list_ascii_of_string s.

(** A server that greets with five bytes. *)
Definition short_greeting : script :=
  {| dial_ok := true;
     read_answer := (bytes_of "5.7.1", None);
     predict_answer := λ _, "" |}.

(** A server that is recognised by the nginx predictor only. *)
Definition nginx_server : script :=
  {| dial_ok := true;
     read_answer := ([], Some "i/o timeout");
     predict_answer := λ p, match p with Nginx => "nginx" | _ => "" end |}.

Definition scanner : PortScanner (H := packages) :=
  NewPortScanner "localhost" Second 2.

(** A schedule of [GetOpenedPorts(80, 80)] in which the port is found
    open. *)
Definition one_port_schedule : list choice :=
  [ RunMain; RunMain; RunMain; RunMain; RunMain; RunMain;
    RunWorker 0 true; RunWorker 0 true; RunWorker 0 true; RunWorker 0 true;
    RunWorker 0 true; RunWorker 0 true; RunWorker 0 true; RunWorker 0 true;
    RunWorker 0 true; RunMain ].

(** A schedule of [GetOpenedPorts(80, 81)] that takes both slots and puts
    both probes in flight. *)
Definition two_probes_schedule : list choice :=
  [ RunMain; RunMain; RunMain; RunMain; RunMain;
    RunMain; RunMain; RunMain; RunMain;
    RunWorker 0 true; RunWorker 1 true ].

(** A host that refuses every connection. *)
Definition refusing : script :=
  {| dial_ok := false;
     read_answer := ([], Some "i/o timeout");
     predict_answer := λ _, "" |}.

(** A schedule of [GetOpenedPorts(80, 80)] that stops with the worker
    holding [mu]. *)
Definition holding_mu_schedule : list choice :=
  replicate 5 RunMain ++ replicate 4 (RunWorker 0 true).

(** A schedule of a sweep over two ports with one thread: each worker runs
    to its end before the next one is created. *)
Definition one_at_a_time : list choice :=
  replicate 5 RunMain ++ replicate 9 (RunWorker 0 true)
  ++ replicate 4 RunMain ++ replicate 9 (RunWorker 1 true)
  ++ replicate 2 RunMain.

(** Two schedules of a sweep over two ports with both workers created
    before either runs: the workers run one after the other, in the order
    of their creation or in the opposite order. *)
Definition create_two_workers : list choice := replicate 10 RunMain.

Definition run_worker (i : nat) : list choice := replicate 9 (RunWorker i true).

Definition two_ports_in_order : list choice :=
  create_two_workers ++ run_worker 0 ++ run_worker 1 ++ [RunMain].

Definition two_ports_reversed : list choice :=
  create_two_workers ++ run_worker 1 ++ run_worker 0 ++ [RunMain].

(** A schedule of a sweep over two ports with two threads in which port 81
    is found open while the dial of port 80 is outstanding, and that dial
    is refused afterwards. *)
Definition one_open_one_refused : list choice :=
  create_two_workers ++ [RunWorker 0 true] ++ run_worker 1
  ++ replicate 3 (RunWorker 0 false) ++ [RunMain].

End Example.

(** * Properties *)

Section Properties.

Context `{Packages}.

#[local] Arguments predict_calls : simpl never.

(** ** Running programs *)

Lemma run_bind {W R S : Type} (h : handler W) (m : prog R) (f : R → prog S) (w : W) :
  run h (bind m f) w =
    let o1 := run h m w in
    let o2 := run h (f (result_of o1)) (world_of o1) in
    (result_of o2, world_of o2, trace_of o1 ++ trace_of o2).
Proof.
  revert w. induction m as [r | X e k IH]; intros w; cbn.
  - by destruct (run h (f r) w) as [[? ?] ?].
  - by rewrite IH.
Qed.

Lemma run_bind_ret {W R : Type} (h : handler W) (m : prog R) (w : W) :
  run h (m ≫= λ r, mret r) w = run h m w.
Proof.
  unfold mbind, prog_bind. rewrite run_bind. cbn. rewrite app_nil_r.
  by destruct (run h m w) as [[? ?] ?].
Qed.

Lemma result_mbind {W R S : Type} (h : handler W) (m : prog R) (f : R → prog S) (w : W) :
  result_of (run h (m ≫= f) w) =
    result_of (run h (f (result_of (run h m w))) (world_of (run h m w))).
Proof. unfold mbind, prog_bind. by rewrite run_bind. Qed.

Lemma world_mbind {W R S : Type} (h : handler W) (m : prog R) (f : R → prog S) (w : W) :
  world_of (run h (m ≫= f) w) =
    world_of (run h (f (result_of (run h m w))) (world_of (run h m w))).
Proof. unfold mbind, prog_bind. by rewrite run_bind. Qed.

Lemma trace_mbind {W R S : Type} (h : handler W) (m : prog R) (f : R → prog S) (w : W) :
  trace_of (run h (m ≫= f) w) =
    trace_of (run h m w) ++
    trace_of (run h (f (result_of (run h m w))) (world_of (run h m w))).
Proof. unfold mbind, prog_bind. by rewrite run_bind. Qed.

Lemma predict_calls_app (t1 t2 : list call) :
  predict_calls (t1 ++ t2) = predict_calls t1 ++ predict_calls t2.
Proof. apply omap_app. Qed.

Lemma run_deferred_no_predict {W : Type} (h : handler W) (l : list Conn) (w : W) :
  predict_calls (trace_of (run h (run_deferred l) w)) = [].
Proof.
  revert w. induction l as [| c l IH]; intros w; [done |].
  cbn. apply IH.
Qed.

Lemma openConn_no_predict {W : Type} (h : handler W) ps hp (w : W) :
  predict_calls (trace_of (run h (openConn ps hp) w)) = [].
Proof.
  unfold openConn. cbn.
  by destruct (h _ (ResolveTCPAddr "tcp4" hp) w) as [[addr | err] w1].
Qed.

Lemma len_positive (s : string) :
  bool_decide (0 < len s)%nat = negb (bool_decide (s = "")).
Proof.
  destruct s; [done |]. cbn. rewrite bool_decide_true by lia.
  by rewrite bool_decide_false.
Qed.

(** The loop of [PredictUsingPredictor] computes the chain of the
    specification, whatever is already deferred. *)
Lemma predict_loop_chain {W : Type} (h : handler W) ps hp l deferred (w : W) :
  let o := run h (predict_loop ps hp l deferred) w in
  (result_of o, predict_calls (trace_of o)) = chain_spec h ps hp l w.
Proof.
  revert deferred w. induction l as [| p l IH]; intros deferred w; cbn zeta.
  - cbn [predict_loop chain_spec].
    rewrite result_mbind, trace_mbind, predict_calls_app, run_deferred_no_predict.
    done.
  - cbn [predict_loop chain_spec].
    rewrite result_mbind, trace_mbind, predict_calls_app, openConn_no_predict.
    destruct (result_of (run h (openConn ps hp) w)) as [conn | err].
    + rewrite result_mbind, trace_mbind, predict_calls_app.
      cbn [trigger run result_of world_of trace_of fst snd].
      rewrite len_positive.
      destruct (decide ((h _ (Predict p hp) (world_of (run h (openConn ps hp) w))).1 = ""))
        as [Hres | Hres].
      * rewrite bool_decide_true by done. cbn [negb].
        by rewrite <- (IH (conn :: deferred)).
      * rewrite bool_decide_false by done. cbn [negb].
        rewrite result_mbind, trace_mbind, predict_calls_app, run_deferred_no_predict.
        done.
    + apply IH.
Qed.

(** ** The known-port table *)

Lemma spec_label_lookup (table : list (Z * string)) (port : Z) :
  spec_label table port = default UNKNOWN ((list_to_map table : gmap Z string) !! port).
Proof.
  induction table as [| [p l] table IH]; [done |].
  cbn [spec_label list_to_map foldr]. cbn [uncurry fst snd].
  destruct (decide (p = port)) as [-> | Hne].
  - by rewrite lookup_insert_eq.
  - by rewrite lookup_insert_ne.
Qed.

Lemma spec_label_absent (table : list (Z * string)) (port : Z) :
  port ∉ table.*1 → spec_label table port = UNKNOWN.
Proof.
  induction table as [| [p l] table IH]; [done |].
  cbn. intros Hnot. apply not_elem_of_cons in Hnot as [Hne Hnot].
  destruct (decide (p = port)); [congruence | auto].
Qed.

(** C7. [predictPort] is a function of the port alone: it returns the label
    the specification's table gives for the port, the unknown sentinel for
    every port the table does not list, and ["MySQL"] for 3306. *)
Theorem predictPort_is_table_lookup :
  (∀ port, predictPort port = spec_label spec_table port)
  ∧ Forall (λ entry, predictPort entry.1 = entry.2) spec_table
  ∧ (∀ port, port ∉ spec_table.*1 → predictPort port = UNKNOWN)
  ∧ predictPort 3306 = "MySQL".
Proof.
  assert (∀ port, predictPort port = spec_label spec_table port) as Hlabel.
  { intros port. rewrite spec_label_lookup. unfold predictPort.
    change (list_to_map spec_table) with KNOWN_PORTS.
    by destruct (KNOWN_PORTS !! port). }
  split_and!.
  - exact Hlabel.
  - unfold spec_table. repeat (constructor; [vm_compute; reflexivity |]). constructor.
  - intros port Hnot. rewrite Hlabel. by apply spec_label_absent.
  - vm_compute. reflexivity.
Qed.

(** ** Registration *)

Lemma registered_app (l : list Predictor) (q p : Predictor) :
  registered (l ++ [q]) p =
    match registered l p with
    | Some false =>
        match Predictor_equal q p with
        | Some b => Some b
        | None => None
        end
    | r => r
    end.
Proof.
  induction l as [| x l IH]; cbn.
  - by destruct (Predictor_equal q p) as [[] |].
  - by destruct (Predictor_equal x p) as [[] |].
Qed.

(** An entry that is [==] to itself is found by the loop, unless a
    comparison with an earlier entry panics. *)
Lemma registered_self_equal (l : list Predictor) (p : Predictor) :
  Predictor_equal p p = Some true → p ∈ l → registered l p ≠ Some false.
Proof.
  intros Hpp. induction l as [| q l IH]; [by intros ?%elem_of_nil |].
  intros Hin. cbn. destruct (decide (q = p)) as [-> | Hne].
  - by rewrite Hpp.
  - apply elem_of_cons in Hin as [? | Hin]; [congruence |].
    destruct (Predictor_equal q p) as [[] |]; [done | by apply IH | done].
Qed.

Lemma entries_none (l : list Predictor) (p : Predictor) :
  p ∉ l → filter (λ q, q = p) l = [].
Proof.
  induction l as [| q l IH]; [done |].
  intros [Hne Hnot]%not_elem_of_cons. rewrite filter_cons.
  destruct (decide (q = p)); [congruence | auto].
Qed.

(** Number of entries of the registry equal to [p]. *)
Lemma entries_once (l : list Predictor) (p : Predictor) :
  NoDup l → p ∈ l → length (filter (λ q, q = p) l) = 1%nat.
Proof.
  induction 1 as [| q l Hq Hnd IH]; [by intros ?%elem_of_nil |].
  intros Hin. rewrite filter_cons. destruct (decide (q = p)) as [-> | Hne].
  - cbn. by rewrite entries_none.
  - apply IH. apply elem_of_cons in Hin as [? | ?]; [congruence | done].
Qed.

Lemma RegisterPredictor_found ps p :
  registered (predictors ps) p = Some true → RegisterPredictor_call ps p = Some ps.
Proof. unfold RegisterPredictor_call. by intros ->. Qed.

Lemma RegisterPredictor_panics ps p :
  registered (predictors ps) p = None → RegisterPredictor_call ps p = None.
Proof. unfold RegisterPredictor_call. by intros ->. Qed.

Lemma RegisterPredictor_prefix ps p :
  predictors ps `prefix_of` predictors (RegisterPredictor ps p).
Proof.
  unfold RegisterPredictor, RegisterPredictor_call.
  destruct (registered (predictors ps) p) as [[] |]; cbn; [done | | done].
  by apply prefix_app_r.
Qed.

Lemma RegisterPredictor_member ps p :
  Predictor_equal p p = Some true → p ∈ predictors ps → RegisterPredictor ps p = ps.
Proof.
  intros Hpp Hin. pose proof (registered_self_equal _ _ Hpp Hin) as Hreg.
  unfold RegisterPredictor, RegisterPredictor_call.
  by destruct (registered (predictors ps) p) as [[] |].
Qed.

Lemma RegisterPredictor_twice ps p :
  Predictor_equal p p = Some true →
  RegisterPredictor (RegisterPredictor ps p) p = RegisterPredictor ps p.
Proof.
  intros Hpp. unfold RegisterPredictor at 2 3. unfold RegisterPredictor_call.
  destruct (registered (predictors ps) p) as [[] |] eqn:Hreg; cbn.
  - unfold RegisterPredictor, RegisterPredictor_call. by rewrite Hreg.
  - unfold RegisterPredictor, RegisterPredictor_call. cbn.
    by rewrite registered_app, Hreg, Hpp.
  - unfold RegisterPredictor, RegisterPredictor_call. by rewrite Hreg.
Qed.

Lemma RegisterPredictor_twice_returns ps p :
  Predictor_equal p p = Some true →
  registered (predictors ps) p ≠ None →
  RegisterPredictor_call (RegisterPredictor ps p) p = Some (RegisterPredictor ps p).
Proof.
  intros Hpp Hno. unfold RegisterPredictor at 1 2. unfold RegisterPredictor_call at 2 3.
  destruct (registered (predictors ps) p) as [[] |] eqn:Hreg; [| | done]; cbn.
  - unfold RegisterPredictor_call. by rewrite Hreg.
  - unfold RegisterPredictor_call. cbn. by rewrite registered_app, Hreg, Hpp.
Qed.

Lemma RegisterPredictor_NoDup ps p :
  Predictor_equal p p = Some true →
  NoDup (predictors ps) → NoDup (predictors (RegisterPredictor ps p)).
Proof.
  intros Hpp Hnd. unfold RegisterPredictor, RegisterPredictor_call.
  destruct (registered (predictors ps) p) as [[] |] eqn:Hreg; cbn; [done | | done].
  apply NoDup_app. split_and!; [done | | apply NoDup_singleton].
  intros x Hx ->%list_elem_of_singleton.
  by apply (registered_self_equal _ _ Hpp Hx).
Qed.

(** C8, as amended.  What a registration does is decided by the [==] of the
    loop: when it finds an equal entry the call changes nothing; when it
    finds none the predictor is appended at the end and no other field is
    touched; when a comparison panics the call does not return and the
    scanner is as before.  In every case the old registry is a prefix of
    the new one.  For a predictor that is [==] to itself: registering it
    while it is in the registry changes nothing, a second registration
    changes nothing and returns when the first did, a registry without
    repetitions stays without repetitions, and once the predictor has been
    appended or was there already such a registry holds it exactly once. *)
Theorem RegisterPredictor_idempotent_append_only (ps : PortScanner) (p : Predictor) :
  (registered (predictors ps) p = Some true →
     RegisterPredictor_call ps p = Some ps ∧ RegisterPredictor ps p = ps)
  ∧ (registered (predictors ps) p = Some false →
       RegisterPredictor_call ps p = Some (RegisterPredictor ps p)
       ∧ predictors (RegisterPredictor ps p) = predictors ps ++ [p]
       ∧ host (RegisterPredictor ps p) = host ps
       ∧ timeout (RegisterPredictor ps p) = timeout ps
       ∧ threads (RegisterPredictor ps p) = threads ps
       ∧ usePredictor (RegisterPredictor ps p) = usePredictor ps)
  ∧ (registered (predictors ps) p = None →
       RegisterPredictor_call ps p = None ∧ RegisterPredictor ps p = ps)
  ∧ predictors ps `prefix_of` predictors (RegisterPredictor ps p)
  ∧ (Predictor_equal p p = Some true →
       (p ∈ predictors ps → RegisterPredictor ps p = ps)
       ∧ RegisterPredictor (RegisterPredictor ps p) p = RegisterPredictor ps p
       ∧ (registered (predictors ps) p ≠ None →
            RegisterPredictor_call (RegisterPredictor ps p) p
            = Some (RegisterPredictor ps p))
       ∧ (NoDup (predictors ps) → NoDup (predictors (RegisterPredictor ps p)))
       ∧ (NoDup (predictors ps) →
          registered (predictors ps) p = Some false ∨ p ∈ predictors ps →
            length (filter (λ q, q = p) (predictors (RegisterPredictor ps p))) = 1%nat)).
Proof.
  split_and!.
  - intros Hreg. unfold RegisterPredictor, RegisterPredictor_call. by rewrite Hreg.
  - intros Hreg. unfold RegisterPredictor, RegisterPredictor_call. by rewrite Hreg.
  - intros Hreg. unfold RegisterPredictor, RegisterPredictor_call. by rewrite Hreg.
  - apply RegisterPredictor_prefix.
  - intros Hpp. split_and!.
    + by apply RegisterPredictor_member.
    + by apply RegisterPredictor_twice.
    + by apply RegisterPredictor_twice_returns.
    + by apply RegisterPredictor_NoDup.
    + intros Hnd Hcase. apply entries_once; [by apply RegisterPredictor_NoDup |].
      destruct Hcase as [Hreg | Hin].
      * unfold RegisterPredictor, RegisterPredictor_call. rewrite Hreg. cbn.
        apply elem_of_app. right. by apply list_elem_of_singleton.
      * by rewrite RegisterPredictor_member.
Qed.

(** ** The concurrency limit *)

(** C9, as amended.  The constructor and [SetThreads] store the integer
    they are given without checking it, so the limit is at least 1 after
    them exactly when the argument is; every other operation leaves the
    limit as it was. *)
Theorem threads_follow_the_caller (ps : PortScanner) (h : string) (t : Duration) (n : Z) :
  threads (NewPortScanner h t n) = n
  ∧ threads (SetThreads ps n) = n
  ∧ (limit_positive (NewPortScanner h t n) ↔ 1 ≤ n)
  ∧ (limit_positive (SetThreads ps n) ↔ 1 ≤ n)
  ∧ (∀ b, threads (TogglePredictor ps b) = threads ps)
  ∧ (∀ d, threads (SetTimeout ps d) = threads ps)
  ∧ (∀ p, threads (RegisterPredictor ps p) = threads ps).
Proof.
  split_and!; try done.
  intros p. unfold RegisterPredictor, RegisterPredictor_call.
  by destruct (registered (predictors ps) p) as [[] |].
Qed.

(** ** Describing a port *)

(** C1. With the predictor switched off, [DescribePort] is the table lookup
    and nothing else: the program makes no network call, so under every
    environment the result is [predictPort port], the environment is left
    as it was and the list of calls is empty. *)
Theorem DescribePort_predictor_off (ps : PortScanner) (port : Z) :
  usePredictor ps = false →
  DescribePort ps port = Ret (predictPort port)
  ∧ ∀ (W : Type) (h : handler W) (w : W),
      run h (DescribePort ps port) w = (predictPort port, w, []).
Proof.
  intros Hoff. unfold DescribePort. rewrite Hoff. by cbn.
Qed.

Lemma IsHttp_true (port : Z) : IsHttp port = true ↔ port = 80 ∨ port = 8080.
Proof.
  unfold IsHttp. rewrite orb_true_iff, !bool_decide_eq_true. done.
Qed.

Lemma PredictUsingPredictor_chain {W : Type} (h : handler W) ps hp (w : W) :
  let o := run h (PredictUsingPredictor ps hp) w in
  (result_of o, predict_calls (trace_of o)) = chain_spec h ps hp (predictors ps) w.
Proof. apply predict_loop_chain. Qed.

(** C2, as amended.  With the predictor switched on, [DescribePort] on
    port 80 or 8080 is the predictor chain on that port: its result is the
    chain's (the unknown sentinel when no predictor answers) and the table
    is not consulted; 80 and 8080 are the only ports [IsHttp] accepts. *)
Theorem DescribePort_http_port (ps : PortScanner) (port : Z) :
  usePredictor ps = true →
  port = 80 ∨ port = 8080 →
  DescribePort ps port = PredictUsingPredictor ps (hostPort ps port)
  ∧ (∀ (W : Type) (h : handler W) (w : W),
       let o := run h (DescribePort ps port) w in
       (result_of o, predict_calls (trace_of o)) =
         chain_spec h ps (hostPort ps port) (predictors ps) w)
  ∧ (∀ q, IsHttp q = true ↔ q = 80 ∨ q = 8080).
Proof.
  intros Hon Hport.
  assert (DescribePort ps port = PredictUsingPredictor ps (hostPort ps port)) as Heq.
  { unfold DescribePort. rewrite Hon. cbn [negb].
    by apply IsHttp_true in Hport as ->. }
  split_and!; [done | | apply IsHttp_true].
  intros W h w. rewrite Heq. apply PredictUsingPredictor_chain.
Qed.

(** C6. With the predictor switched on, on a port that is not an HTTP port
    and that the table does not know, [DescribePort] is the predictor
    chain: under every environment its result and the predictors it asks
    are those of the chain as the specification words it (registration
    order, a failed connection skips the predictor, the first non-empty
    answer ends the evaluation, the unknown sentinel when none is left). *)
Theorem DescribePort_unknown_port (ps : PortScanner) (port : Z) :
  usePredictor ps = true →
  IsHttp port = false →
  predictPort port = UNKNOWN →
  ∀ (W : Type) (h : handler W) (w : W),
    run h (DescribePort ps port) w = run h (PredictUsingPredictor ps (hostPort ps port)) w
    ∧ let o := run h (DescribePort ps port) w in
      (result_of o, predict_calls (trace_of o)) =
        chain_spec h ps (hostPort ps port) (predictors ps) w.
Proof.
  intros Hon Hhttp Hunknown W h w.
  assert (run h (DescribePort ps port) w
          = run h (PredictUsingPredictor ps (hostPort ps port)) w) as Heq.
  { unfold DescribePort. rewrite Hon, Hhttp, Hunknown. cbn [negb].
    rewrite decide_True by done.
    destruct (decide (UNKNOWN = "MySQL")) as [Hbad | _]; [discriminate |].
    apply run_bind_ret. }
  split; [done |]. cbn zeta. rewrite Heq. apply PredictUsingPredictor_chain.
Qed.

(** [IsOpen] dials once, closes the connection it got, and reports whether
    the dial succeeded. *)
Lemma IsOpen_run {W : Type} (h : handler W) ps port (w : W) :
  let dial := DialTimeout "tcp" (hostPort ps port) (timeout ps) in
  let o := run h (IsOpen ps port) w in
  match (h _ dial w).1 with
  | inl conn =>
      result_of o = true ∧ trace_of o = [existT _ dial; existT _ (Close conn)]
  | inr _ => result_of o = false ∧ trace_of o = [existT _ dial]
  end.
Proof.
  cbn zeta. unfold IsOpen. cbn.
  by destruct (h _ (DialTimeout "tcp" (hostPort ps port) (timeout ps)) w) as [[conn | err] w1].
Qed.

(** ** The MySQL follow-up *)

Lemma fill_length (buf data : list byte) : length (fill buf data) = length buf.
Proof.
  unfold fill. rewrite length_app, length_take, length_drop. lia.
Qed.

Lemma fill_short (n : nat) (data : list byte) :
  (length data ≤ n)%nat →
  fill (make_bytes n) data = data ++ make_bytes (n - length data).
Proof.
  intros Hlen. unfold fill, make_bytes. rewrite length_replicate.
  rewrite take_ge by done. by rewrite drop_replicate.
Qed.

Lemma string_of_bytes_length (b : list byte) : len (string_of_bytes b) = length b.
Proof. induction b as [| c b IH]; cbn; [done | by f_equal]. Qed.

Lemma DescribePort_mysql_port (ps : PortScanner) (port : Z) :
  usePredictor ps = true →
  IsHttp port = false →
  predictPort port = "MySQL" →
  DescribePort ps port = getMySQLVersion ps port "MySQL".
Proof.
  intros Hon Hhttp Hguess. unfold DescribePort. rewrite Hon, Hhttp, Hguess. cbn [negb].
  destruct (decide ("MySQL" = UNKNOWN)) as [Hbad | _]; [discriminate |].
  cbn. by destruct (decide ("MySQL" = "MySQL")).
Qed.

(** [openConn] resolves the address and, when that succeeds, dials once. *)
Lemma openConn_trace {W : Type} (h : handler W) ps hp (w : W) :
  let resolved := h _ (ResolveTCPAddr "tcp4" hp) w in
  trace_of (run h (openConn ps hp) w) =
    match resolved.1 with
    | inl tcpAddr =>
        [existT _ (ResolveTCPAddr "tcp4" hp);
         existT _ (DialTimeout "tcp" tcpAddr (timeout ps))]
    | inr _ => [existT _ (ResolveTCPAddr "tcp4" hp)]
    end.
Proof.
  unfold openConn. cbn.
  by destruct (h _ (ResolveTCPAddr "tcp4" hp) w) as [[addr | err] w1].
Qed.

(** What [getMySQLVersion] does under an environment.  When the connection
    fails the guess comes back and nothing more is called.  Otherwise the
    calls are: the clock, a deadline three seconds later, one read into a
    buffer of 20 bytes, and the deferred close; a failed read gives the
    guess back, a successful one appends [" version: "] and the text of the
    whole buffer. *)
Lemma getMySQLVersion_run {W : Type} (h : handler W) ps port assumed (w : W) :
  let attempt := run h (openConn ps (hostPort ps port)) w in
  let o := run h (getMySQLVersion ps port assumed) w in
  match result_of attempt with
  | inr _ => result_of o = assumed ∧ trace_of o = trace_of attempt
  | inl conn =>
      let now := h _ Now (world_of attempt) in
      let deadline := now.1 + 3 * Second in
      let set := h _ (SetDeadline conn deadline) now.2 in
      let rd := h _ (Read conn 20) set.2 in
      trace_of o =
        trace_of attempt ++
        [existT _ Now; existT _ (SetDeadline conn deadline);
         existT _ (Read conn 20); existT _ (Close conn)]
      ∧ result_of o =
          match rd.1.2 with
          | None => assumed +:+ " version: " +:+ string_of_bytes (fill (make_bytes 20) rd.1.1)
          | Some _ => assumed
          end
  end.
Proof.
  cbn zeta. unfold getMySQLVersion.
  rewrite result_mbind, trace_mbind.
  destruct (result_of (run h (openConn ps (hostPort ps port)) w)) as [conn | err].
  - cbn [length make_bytes replicate].
    set (w1 := world_of (run h (openConn ps (hostPort ps port)) w)).
    cbn [mbind prog_bind bind trigger run result_of world_of trace_of fst snd].
    destruct ((h _ (Read conn 20)
                 (h _ (SetDeadline conn ((h _ Now w1).1 + 3 * Second)) (h _ Now w1).2).2).1.2);
      by cbn.
  - cbn. by rewrite app_nil_r.
Qed.

Lemma len_append (a b : string) : len (a +:+ b) = (len a + len b)%nat.
Proof.
  unfold len. induction a as [| c a IH]; [done |].
  change (S (String.length (a +:+ b)) = S (String.length a + String.length b)).
  by rewrite IH.
Qed.

(** A read that fills the buffer gives the label of the specification. *)
Lemma mysql_label_full_read (assumed : string) (data : list byte) :
  length data = 20%nat →
  assumed +:+ " version: " +:+ string_of_bytes (fill (make_bytes 20) data)
    = mysql_label_spec assumed data.
Proof.
  intros Hlen. unfold mysql_label_spec. rewrite fill_short by lia.
  rewrite Hlen. cbn [Nat.sub make_bytes replicate]. by rewrite app_nil_r.
Qed.

(** A shorter one does not: the label carries the rest of the buffer. *)
Lemma mysql_label_short_read (assumed : string) (data : list byte) :
  (length data < 20)%nat →
  assumed +:+ " version: " +:+ string_of_bytes (fill (make_bytes 20) data)
    ≠ mysql_label_spec assumed data.
Proof.
  intros Hlen Heq. apply (f_equal len) in Heq. unfold mysql_label_spec in Heq.
  rewrite !len_append, !string_of_bytes_length, fill_length in Heq.
  unfold make_bytes in Heq. rewrite length_replicate in Heq. lia.
Qed.

(** A successful read always appends 20 bytes, however many were read. *)
Lemma mysql_label_always_20 (data : list byte) :
  len (string_of_bytes (fill (make_bytes 20) data)) = 20%nat.
Proof.
  rewrite string_of_bytes_length, fill_length. apply length_replicate.
Qed.

(** ** The sweep *)

Lemma wrap_int_id (z : Z) : in_int z → wrap_int z = z.
Proof.
  unfold in_int, wrap_int, min_int, max_int. intros Hz.
  rewrite Z.mod_small by lia. lia.
Qed.

Lemma wrap_int_range (z : Z) : in_int (wrap_int z).
Proof.
  unfold in_int, wrap_int, min_int, max_int.
  pose proof (Z.mod_pos_bound (z + 2 ^ 63) (2 ^ 64)). lia.
Qed.

Lemma count_app f (l1 l2 : list (Z * worker_pc)) :
  count f (l1 ++ l2) = (count f l1 + count f l2)%nat.
Proof. induction l1 as [| w l1 IH]; cbn; [done | rewrite IH; destruct (f w.2); lia]. Qed.

Lemma count_insert f (ws : list (Z * worker_pc)) i p pc pc' :
  ws !! i = Some (p, pc) →
  (count f (<[i := (p, pc')]> ws) + Nat.b2n (f pc) = count f ws + Nat.b2n (f pc'))%nat.
Proof.
  revert i. induction ws as [| w ws IH]; intros [| i] Hi; try done.
  - cbn in Hi. simplify_eq. cbn. destruct (f pc), (f pc'); cbn; lia.
  - cbn in Hi. simpl. specialize (IH i Hi). destruct (f w.2); lia.
Qed.

Lemma count_le f g (ws : list (Z * worker_pc)) :
  (∀ pc, f pc = true → g pc = true) → (count f ws ≤ count g ws)%nat.
Proof.
  intros Hfg. induction ws as [| [p pc] ws IH]; cbn; [done |].
  specialize (Hfg pc). destruct (f pc), (g pc); cbn; lia.
Qed.

Lemma count_lookup f (ws : list (Z * worker_pc)) i p pc :
  ws !! i = Some (p, pc) → f pc = true → (1 ≤ count f ws)%nat.
Proof.
  revert i. induction ws as [| w ws IH]; intros [| i] Hi Hf; try done.
  - cbn in Hi. simplify_eq. cbn. rewrite Hf. lia.
  - cbn in Hi. cbn. specialize (IH i Hi Hf). destruct (f w.2); lia.
Qed.

Lemma count_unique f (ws : list (Z * worker_pc)) i j p q pc pc' :
  (count f ws ≤ 1)%nat →
  ws !! i = Some (p, pc) → f pc = true →
  ws !! j = Some (q, pc') → f pc' = true →
  i = j.
Proof.
  revert i j. induction ws as [| w ws IH]; intros [| i] [| j] Hc Hi Hfi Hj Hfj;
    try done; cbn in *; simplify_eq; cbn [snd] in Hc.
  - pose proof (count_lookup f ws j q pc' Hj Hfj). rewrite Hfi in Hc. lia.
  - pose proof (count_lookup f ws i p pc Hi Hfi). rewrite Hfj in Hc. lia.
  - f_equal. apply (IH i j); try done. destruct (f w.2); lia.
Qed.

(** Case analysis of one step. *)
Ltac step_cases Hstep :=
  unfold next, main_step, worker_step, rendezvous in Hstep;
  repeat (case_match; simplify_eq; try done).

Ltac use_count f :=
  match goal with
  | Hl : ?ws !! ?i = Some (?p, ?pc) |- context [count f (<[?i := (?p, ?pc')]> ?ws)] =>
      let Hc := fresh "Hc" in
      pose proof (count_insert f ws i p pc pc' Hl) as Hc; cbn in Hc
  end.

Ltac use_lookup f :=
  match goal with
  | Hl : ?ws !! ?i = Some (?p, ?pc) |- _ =>
      pose proof (count_lookup f ws i p pc Hl eq_refl)
  end.

Lemma sync_ok_initial ps : sync_ok ps initial.
Proof. unfold sync_ok; cbn. lia. Qed.

Lemma sync_ok_step ps start end_ c st st' :
  sync_ok ps st → next ps start end_ c st = Some st' → sync_ok ps st'.
Proof.
  intros (Hsem & Hcap & Hwg & Hmu) Hstep. destruct st as [m ws s k g ops].
  cbn in *. unfold sync_ok.
  destruct c as [| i ok | i]; step_cases Hstep; cbn in *;
    rewrite ?count_app; cbn;
    try use_count holds_slot; try use_count running; try use_count in_critical;
    try (split_and!; lia).
  all: exfalso; try use_lookup in_critical; try use_lookup running; lia.
Qed.

Lemma sync_ok_reachable ps start end_ st :
  reachable ps start end_ st → sync_ok ps st.
Proof.
  intros [sched Hexec]. revert st Hexec.
  assert (∀ st0 st, sync_ok ps st0 → exec ps start end_ sched st0 = Some st → sync_ok ps st)
    as Hgen.
  { induction sched as [| c sched IH]; intros st0 st Hinv Hexec; cbn in Hexec.
    - by simplify_eq.
    - destruct (next ps start end_ c st0) as [st1 |] eqn:Hstep; [| done].
      eapply IH; [| done]. by eapply sync_ok_step. }
  intros st. apply Hgen, sync_ok_initial.
Qed.

(** A worker moves on without touching [openPorts]. *)
Lemma ports_ok_update start end_ m ws s k g s' k' g' ops i p pc pc' :
  ports_ok start end_ (State m ws s k g ops) →
  ws !! i = Some (p, pc) →
  running pc = true →
  appended pc' = appended pc →
  (∀ l, pc' = WStore l → l = ops ++ [p]) →
  ports_ok start end_ (State m (<[i := (p, pc')]> ws) s' k' g' ops).
Proof.
  intros (Hport & Hlen & Hmain & Hnd & Hopen & Hstore) Hi Hrun Hsame Hnew.
  cbn in *. unfold ports_ok; cbn.
  assert (i < length ws)%nat as Hlt by (by eapply lookup_lt_Some).
  split_and!.
  - intros j q pcj Hj. destruct (decide (i = j)) as [<- | Hne].
    + rewrite list_lookup_insert_eq in Hj by done. simplify_eq. by eapply Hport.
    + rewrite list_lookup_insert_ne in Hj by done. by eapply Hport.
  - rewrite length_insert. intros Hnil. apply Hlen. by intros ->.
  - rewrite length_insert. destruct m; try done.
    + destruct Hmain as [-> _]. done.
    + destruct Hmain as (? & ? & Hzero).
      pose proof (count_lookup running ws i p pc Hi Hrun). lia.
  - done.
  - intros x. rewrite Hopen. split.
    + intros (j & pcj & Hj & Happ). destruct (decide (i = j)) as [<- | Hne].
      * simplify_eq. exists i, pc'. rewrite list_lookup_insert_eq by done.
        split; [done | congruence].
      * exists j, pcj. by rewrite list_lookup_insert_ne by done.
    + intros (j & pcj & Hj & Happ). destruct (decide (i = j)) as [<- | Hne].
      * rewrite list_lookup_insert_eq in Hj by done. simplify_eq.
        exists i, pc. split; [done | congruence].
      * rewrite list_lookup_insert_ne in Hj by done. by exists j, pcj.
  - intros j q l Hj. destruct (decide (i = j)) as [<- | Hne].
    + rewrite list_lookup_insert_eq in Hj by done. simplify_eq. by apply Hnew.
    + rewrite list_lookup_insert_ne in Hj by done. by eapply Hstore.
Qed.

(** The worker holding [mu] assigns the slice it computed. *)
Lemma ports_ok_store start end_ m ws s k g s' k' g' ops i p l :
  ports_ok start end_ (State m ws s k g ops) →
  (count in_critical ws ≤ 1)%nat →
  ws !! i = Some (p, WStore l) →
  ports_ok start end_ (State m (<[i := (p, WUnlock)]> ws) s' k' g' l).
Proof.
  intros (Hport & Hlen & Hmain & Hnd & Hopen & Hstore) Hone Hi.
  cbn in *. unfold ports_ok; cbn.
  assert (i < length ws)%nat as Hlt by (by eapply lookup_lt_Some).
  assert (l = ops ++ [p]) as -> by (by eapply Hstore).
  assert (p ∉ ops) as Hfresh.
  { rewrite Hopen. intros (j & pcj & Hj & Hback).
    assert (j = i) as ->.
    { pose proof (Hport _ _ _ Hj). pose proof (Hport _ _ _ Hi). lia. }
    by simplify_eq. }
  split_and!.
  - intros j q pcj Hj. destruct (decide (i = j)) as [<- | Hne].
    + rewrite list_lookup_insert_eq in Hj by done. simplify_eq. by eapply Hport.
    + rewrite list_lookup_insert_ne in Hj by done. by eapply Hport.
  - rewrite length_insert. intros Hnil. apply Hlen. by intros ->.
  - rewrite length_insert. destruct m; try done.
    + destruct Hmain as [-> _]. done.
    + destruct Hmain as (? & ? & Hzero).
      pose proof (count_lookup running ws i p _ Hi eq_refl). lia.
  - apply NoDup_app. split_and!; [done | | apply NoDup_singleton].
    by intros x Hx ->%list_elem_of_singleton.
  - intros x. rewrite elem_of_app, list_elem_of_singleton, Hopen. split.
    + intros [(j & pcj & Hj & Happ) | ->].
      * destruct (decide (i = j)) as [<- | Hne]; [by simplify_eq |].
        exists j, pcj. by rewrite list_lookup_insert_ne by done.
      * exists i, WUnlock. by rewrite list_lookup_insert_eq by done.
    + intros (j & pcj & Hj & Happ). destruct (decide (i = j)) as [<- | Hne].
      * rewrite list_lookup_insert_eq in Hj by done. simplify_eq. by right.
      * rewrite list_lookup_insert_ne in Hj by done. left. by exists j, pcj.
  - intros j q l' Hj. destruct (decide (i = j)) as [<- | Hne].
    + rewrite list_lookup_insert_eq in Hj by done. by simplify_eq.
    + rewrite list_lookup_insert_ne in Hj by done. exfalso. apply Hne.
      by eapply (count_unique in_critical ws i j).
Qed.

(** The main goroutine creates the worker of the next port. *)
Lemma ports_ok_go start end_ ws s k g ops p :
  min_int ≤ start → end_ < max_int →
  ports_ok start end_ (State (MGo p) ws s k g ops) →
  ports_ok start end_
    (State (MLoop (wrap_int (p + 1))) (ws ++ [(p, WStart)]) s k g ops).
Proof.
  intros Hstart Hend (Hport & Hlen & [-> Hle] & Hnd & Hopen & Hstore).
  cbn in *. unfold ports_ok; cbn. rewrite length_app. cbn.
  split_and!.
  - intros j q pcj Hj. apply lookup_app_Some in Hj as [Hj | [Hge Hj]].
    + by eapply Hport.
    + apply list_lookup_singleton_Some in Hj as [Hj ?]. simplify_eq. lia.
  - intros _. lia.
  - rewrite wrap_int_id; [lia |]. unfold in_int. lia.
  - done.
  - intros x. rewrite Hopen. split.
    + intros (j & pcj & Hj & Happ). exists j, pcj. split; [| done].
      apply lookup_app_Some. by left.
    + intros (j & pcj & Hj & Happ). apply lookup_app_Some in Hj as [Hj | [Hge Hj]].
      * by exists j, pcj.
      * apply list_lookup_singleton_Some in Hj as [Hj ?]. by simplify_eq.
  - intros j q l Hj. apply lookup_app_Some in Hj as [Hj | [Hge Hj]].
    + by eapply Hstore.
    + apply list_lookup_singleton_Some in Hj as [Hj ?]. by simplify_eq.
Qed.

Lemma ports_ok_initial start end_ : ports_ok start end_ initial.
Proof.
  unfold ports_ok; cbn. split_and!; try done.
  - apply NoDup_nil_2.
  - intros x. split; [by intros ?%elem_of_nil | by intros (? & ? & ? & _)].
Qed.

(** The main goroutine moves between two places that constrain the
    workers in the same way. *)
Lemma ports_ok_main start end_ m m' ws s k g s' k' g' ops :
  ports_ok start end_ (State m ws s k g ops) →
  match m' with
  | MMake => False
  | MLoop p => p = start + Z.of_nat (length ws)
  | MSend p | MAdd p | MGo p => p = start + Z.of_nat (length ws) ∧ p ≤ end_
  | MWait => end_ < start + Z.of_nat (length ws)
  | MReturn r =>
      end_ < start + Z.of_nat (length ws) ∧ r = ops ∧ count running ws = 0%nat
  | MPanic => True
  end →
  ports_ok start end_ (State m' ws s' k' g' ops).
Proof.
  intros (Hport & Hlen & Hmain & Hnd & Hopen & Hstore) Hm'.
  unfold ports_ok; cbn in *. split_and!; try done. by destruct m'.
Qed.

Lemma ports_ok_step ps start end_ c st st' :
  min_int ≤ start → end_ < max_int →
  sync_ok ps st → ports_ok start end_ st →
  next ps start end_ c st = Some st' → ports_ok start end_ st'.
Proof.
  intros Hstart Hend (Hsem & Hcap & Hwg & Hmu) Hinv Hstep.
  destruct st as [m ws s k g ops]. cbn in *.
  destruct c as [| i ok | i].
  - pose proof Hinv as (_ & _ & Hmain & _).
    destruct m; cbn in Hstep, Hmain; repeat case_match; simplify_eq;
      try (by apply ports_ok_go);
      (eapply ports_ok_main; [done |]); cbn in *; try done; try lia.
    + destruct Hmain as [-> _]. cbn. lia.
    + split_and!; [done | done | lia].
  - assert (count in_critical ws ≤ 1)%nat as Hone by (destruct k; cbn in Hmu; lia).
    step_cases Hstep;
      solve [ eapply ports_ok_update; [done | done | done | done | by intros; simplify_eq]
            | by eapply ports_ok_store
            | by eapply ports_ok_main ].
  - step_cases Hstep.
    eapply (ports_ok_main start end_ (MSend port) (MAdd port) _ 0%nat false 0).
    + eapply ports_ok_update; [done | done | done | done | by intros; simplify_eq].
    + rewrite length_insert. by destruct Hinv as (_ & _ & ? & _).
Qed.

Lemma exec_invariant ps start end_ (P : state → Prop) :
  P initial →
  (∀ c st st', reachable ps start end_ st → P st →
     next ps start end_ c st = Some st' → P st') →
  ∀ st, reachable ps start end_ st → P st.
Proof.
  intros Hinit Hstep st [sched Hexec].
  assert (∀ st0, reachable ps start end_ st0 → P st0 →
            exec ps start end_ sched st0 = Some st → P st) as Hgen.
  { clear Hexec. induction sched as [| c sched IH]; intros st0 [sched0 Hreach] HP Hexec;
      cbn in Hexec.
    - by simplify_eq.
    - destruct (next ps start end_ c st0) as [st1 |] eqn:Hnext; [| done].
      eapply (IH st1); [| | done].
      + exists (sched0 ++ [c]). clear IH Hexec HP.
        revert Hreach. generalize initial. induction sched0 as [| c0 sched0 IH0];
          intros st2 Hreach; cbn in *.
        * simplify_eq. by rewrite Hnext.
        * destruct (next ps start end_ c0 st2); [by apply IH0 | done].
      + eapply (Hstep c st0 st1); [by exists sched0 | done | done]. }
  apply (Hgen initial); [by exists [] | done | done].
Qed.

Lemma ports_ok_reachable ps start end_ st :
  min_int ≤ start → end_ < max_int →
  reachable ps start end_ st → ports_ok start end_ st.
Proof.
  intros Hstart Hend. apply exec_invariant; [apply ports_ok_initial |].
  intros c st0 st1 Hreach Hinv Hstep.
  eapply ports_ok_step; [done | done | | done | done].
  by eapply sync_ok_reachable.
Qed.

Lemma never_leaves_loop_reachable ps start st :
  start ≤ max_int →
  reachable ps start max_int st → never_leaves_loop st.
Proof.
  intros Hstart. apply exec_invariant; [done |].
  intros c st0 st1 _ Hinv Hstep. destruct st0 as [m ws s k g ops].
  destruct c as [| i ok | i]; step_cases Hstep;
    unfold never_leaves_loop in *; cbn in *; try done; try lia.
  by destruct (wrap_int_range (port + 1)).
Qed.

Lemma count_zero_lookup f (ws : list (Z * worker_pc)) i p pc :
  count f ws = 0%nat → ws !! i = Some (p, pc) → f pc = false.
Proof.
  intros Hzero Hi. destruct (f pc) eqn:Hf; [| done].
  pose proof (count_lookup f ws i p pc Hi Hf). lia.
Qed.

Lemma finished_worker (ws : list (Z * worker_pc)) i p pc :
  count running ws = 0%nat → ws !! i = Some (p, pc) → ∃ b, pc = WExit b.
Proof.
  intros Hzero Hi. pose proof (count_zero_lookup running ws i p pc Hzero Hi).
  destruct pc; try done. by eexists.
Qed.

(** C5. In every state of the sweep the workers inside [IsOpen] are no
    more than the workers holding a slot of [sem], which are no more than
    [ps.threads] (none at all when that is negative: whenever a probe is in
    flight, the number in flight is within [ps.threads]).  While every slot is
    taken the main goroutine stays at its send whatever step is taken, and
    it passes the send as soon as one is free. *)
Theorem GetOpenedPorts_bounded (ps : PortScanner) (start end_ : Z) (st : state) :
  reachable ps start end_ st →
  (in_flight st ≤ slots_taken st)%nat
  ∧ (slots_taken st ≤ Z.to_nat (threads ps))%nat
  ∧ ((0 < in_flight st)%nat → Z.of_nat (in_flight st) ≤ threads ps)
  ∧ (∀ port c st',
       main st = MSend port →
       slots_taken st = Z.to_nat (threads ps) →
       next ps start end_ c st = Some st' →
       main st' = MSend port)
  ∧ (∀ port,
       main st = MSend port →
       (slots_taken st < Z.to_nat (threads ps))%nat →
       ∃ st', next ps start end_ RunMain st = Some st' ∧ main st' = MAdd port).
Proof.
  intros Hreach. apply sync_ok_reachable in Hreach.
  destruct Hreach as (Hsem & Hcap & Hwg & Hmu).
  unfold in_flight, slots_taken. destruct st as [m ws s k g ops]. cbn in *.
  assert (count probing ws ≤ count holds_slot ws)%nat as Hle
    by (apply count_le; by intros []).
  split_and!.
  - done.
  - lia.
  - lia.
  - intros port c st' -> Hfull Hstep. cbn in *.
    destruct c as [| i ok | i]; step_cases Hstep; cbn in *; try done; try lia; exfalso.
    + use_lookup in_critical. lia.
    + use_lookup running. lia.
    + use_lookup holds_slot. lia.
  - intros port -> Hfree. cbn in *.
    rewrite decide_True by lia. by eexists.
Qed.

(** The states of a sweep over an empty range. *)
Lemma empty_range_states ps start end_ st :
  0 ≤ threads ps → end_ < start →
  reachable ps start end_ st →
  st ∈ [ initial;
         State (MLoop start) [] 0 false 0 [];
         State MWait [] 0 false 0 [];
         State (MReturn []) [] 0 false 0 [] ].
Proof.
  intros Hthreads Hempty Hreach. pattern st. revert st Hreach.
  apply exec_invariant; [by left |].
  intros c st0 st1 _ Hin Hstep. cbn beta in *.
  repeat (apply elem_of_cons in Hin as [-> | Hin]); [| | | | by apply elem_of_nil in Hin];
    destruct c as [| i ok | i]; cbn in Hstep; repeat case_match; simplify_eq;
    try lia; set_solver.
Qed.

(** With a negative [ps.threads] the call panics at [make]. *)
Lemma negative_threads_states ps start end_ st :
  threads ps < 0 →
  reachable ps start end_ st →
  st = initial ∨ st = State MPanic [] 0 false 0 [].
Proof.
  intros Hneg Hreach. pattern st. revert st Hreach.
  apply exec_invariant; [by left |].
  intros c st0 st1 _ [-> | ->] Hstep;
    destruct c as [| i ok | i]; cbn in Hstep; repeat case_match; simplify_eq;
    try lia; by right.
Qed.

(** C10, as amended.  On a scanner whose [threads] is not negative, a
    sweep with [start > end] returns the empty slice after three steps of
    the main goroutine; no other execution exists, so no worker is created
    and no port is probed. *)
Theorem GetOpenedPorts_empty_range (ps : PortScanner) (start end_ : Z) :
  0 ≤ threads ps → end_ < start →
  exec ps start end_ [RunMain; RunMain; RunMain] initial
    = Some (State (MReturn []) [] 0 false 0 [])
  ∧ ∀ st, reachable ps start end_ st →
      workers st = [] ∧ in_flight st = 0%nat ∧ openPorts st = []
      ∧ (∀ r, main st = MReturn r → r = [])
      ∧ ((∃ r, main st = MReturn r)
         ∨ ∃ st', next ps start end_ RunMain st = Some st').
Proof.
  intros Hthreads Hempty. split.
  - cbn. rewrite decide_False by lia. cbn. by rewrite decide_False by lia.
  - intros st Hin%empty_range_states; [| done | done].
    repeat (apply elem_of_cons in Hin as [-> | Hin]); [| | | | by apply elem_of_nil in Hin];
      cbn; split_and!; try done; try (by intros ? [= <-]).
    + right. rewrite decide_False by lia. by eexists.
    + right. rewrite decide_False by lia. by eexists.
    + right. by eexists.
    + left. by eexists.
Qed.

(** *** The sweep does not get stuck *)

Lemma no_panic ps start end_ st :
  0 ≤ threads ps → reachable ps start end_ st → main st ≠ MPanic.
Proof.
  intros Hthreads Hreach. pattern st. revert st Hreach.
  apply exec_invariant; [done |].
  intros c st0 st1 Hreach Hmain Hstep. cbn beta in *.
  apply sync_ok_reachable in Hreach as (Hsem & Hcap & Hwg & Hmu).
  destruct st0 as [m ws s k g ops]. cbn in *.
  destruct c as [| i ok | i]; step_cases Hstep; cbn in *; try done; try lia;
    exfalso; try use_lookup in_critical; try use_lookup running; lia.
Qed.

Lemma count_pos_lookup f (ws : list (Z * worker_pc)) :
  (1 ≤ count f ws)%nat → ∃ i p pc, ws !! i = Some (p, pc) ∧ f pc = true.
Proof.
  induction ws as [| [p pc] ws IH]; cbn; [lia |].
  destruct (f pc) eqn:Hf.
  - intros _. by exists 0%nat, p, pc.
  - intros (i & q & pcq & Hi & Hq)%IH. by exists (S i), q, pcq.
Qed.

Lemma worker_step_lookup i ok m ws s k g ops p pc :
  m ≠ MPanic → ws !! i = Some (p, pc) →
  worker_step i ok (State m ws s k g ops) =
    let at_ pc' := <[i := (p, pc')]> ws in
    match pc with
    | WStart => Some (State m (at_ WDial) s k g ops)
    | WDial =>
        if ok then Some (State m (at_ WClose) s k g ops)
        else Some (State m (at_ (WRecv false)) s k g ops)
    | WClose => Some (State m (at_ WLock) s k g ops)
    | WLock => if k then None else Some (State m (at_ WLocked) s true g ops)
    | WLocked => Some (State m (at_ (WStore (ops ++ [p]))) s k g ops)
    | WStore l => Some (State m (at_ WUnlock) s k g l)
    | WUnlock =>
        if k then Some (State m (at_ (WRecv true)) s false g ops)
        else Some (State MPanic ws s k g ops)
    | WRecv b =>
        match s with
        | O => None
        | S s' => Some (State m (at_ (WDone b)) s' k g ops)
        end
    | WDone b =>
        if decide (0 < g) then Some (State m (at_ (WExit b)) s k (g - 1) ops)
        else Some (State MPanic ws s k g ops)
    | WExit _ => None
    end.
Proof.
  intros Hm Hi. unfold worker_step. rewrite Hi. by destruct m.
Qed.

(** A worker that has not finished can move, or the worker holding [mu]
    can. *)
Lemma worker_progress ps start end_ st i p pc :
  sync_ok ps st → main st ≠ MPanic →
  workers st !! i = Some (p, pc) → running pc = true →
  ∃ c st', next ps start end_ c st = Some st'.
Proof.
  intros (Hsem & Hcap & Hwg & Hmu) Hm Hi Hrun.
  destruct st as [m ws s k g ops]. cbn in *.
  assert (pc = WLock ∧ k = true ∨ ¬ (pc = WLock ∧ k = true)) as [[-> ->] | Hfree].
  { destruct pc, k; (by left) || (right; by intros [? ?]). }
  - (* blocked on [mu]: its holder moves *)
    cbn in Hmu. destruct (count_pos_lookup in_critical ws) as (j & q & pcq & Hj & Hq); [lia |].
    exists (RunWorker j true). cbn [next]. rewrite (worker_step_lookup _ _ _ _ _ _ _ _ _ _ Hm Hj).
    destruct pcq; try done; by eexists.
  - exists (RunWorker i true). cbn [next]. rewrite (worker_step_lookup _ _ _ _ _ _ _ _ _ _ Hm Hi).
    destruct pc; try done; cbn zeta; try (by eexists).
    + destruct k; [| by eexists]. exfalso. by apply Hfree.
    + destruct k; by eexists.
    + use_lookup holds_slot. destruct s; [lia | by eexists].
    + use_lookup running. assert (0 ≤ announced m) by (by destruct m).
      rewrite decide_True by lia. by eexists.
Qed.

(** With at least one thread allowed, every state of the sweep in which
    the main goroutine has not returned has a next step: there is no
    deadlock. *)
Lemma GetOpenedPorts_progress ps start end_ st :
  1 ≤ threads ps →
  reachable ps start end_ st →
  (∃ r, main st = MReturn r) ∨ ∃ c st', next ps start end_ c st = Some st'.
Proof.
  intros Hthreads Hreach.
  pose proof (no_panic ps start end_ st ltac:(lia) Hreach) as Hm.
  pose proof (sync_ok_reachable _ _ _ _ Hreach) as Hsync.
  pose proof Hsync as (Hsem & Hcap & Hwg & Hmu).
  destruct st as [m ws s k g ops]. cbn in *.
  destruct m; try done.
  - right. exists RunMain. cbn. case_decide; by eexists.
  - right. exists RunMain. cbn. case_decide; by eexists.
  - destruct (decide (Z.of_nat s < threads ps)) as [Hroom | Hfull].
    + right. exists RunMain. cbn. rewrite decide_True by done. by eexists.
    + right. cbn in Hsem.
      destruct (count_pos_lookup holds_slot ws) as (i & p & pc & Hi & Hp); [lia |].
      eapply (worker_progress ps start end_ _ i p pc); [done | done | done |].
      by destruct pc.
  - right. exists RunMain. cbn. by eexists.
  - right. exists RunMain. cbn. by eexists.
  - destruct (decide (g = 0)) as [Hzero | Hbusy].
    + right. exists RunMain. cbn. rewrite decide_True by done. by eexists.
    + right. cbn in Hwg.
      destruct (count_pos_lookup running ws) as (i & p & pc & Hi & Hp); [lia |].
      by eapply (worker_progress ps start end_ _ i p pc).
  - left. by eexists.
Qed.

(** *** The sweep returns *)

Lemma weight_app (l1 l2 : list (Z * worker_pc)) :
  weight (l1 ++ l2) = (weight l1 + weight l2)%nat.
Proof. induction l1 as [| w l1 IH]; cbn; [done | rewrite IH; lia]. Qed.

Lemma weight_insert (ws : list (Z * worker_pc)) i p pc pc' :
  ws !! i = Some (p, pc) →
  (weight (<[i := (p, pc')]> ws) + worker_weight pc = weight ws + worker_weight pc')%nat.
Proof.
  revert i. induction ws as [| w ws IH]; intros [| i] Hi; try done.
  - cbn in Hi. simplify_eq. cbn. lia.
  - cbn in Hi. simpl. specialize (IH i Hi). lia.
Qed.

Ltac use_weight :=
  match goal with
  | Hl : ?ws !! ?i = Some (?p, ?pc) |- context [weight (<[?i := (?p, ?pc')]> ?ws)] =>
      let Hw := fresh "Hw" in
      pose proof (weight_insert ws i p pc pc' Hl) as Hw; cbn in Hw
  end.

(** Every step uses up one of the steps left. *)
Lemma steps_left_decrease ps start end_ c st st' :
  min_int ≤ start → end_ < max_int →
  reachable ps start end_ st →
  next ps start end_ c st = Some st' →
  (steps_left start end_ st' < steps_left start end_ st)%nat.
Proof.
  intros Hstart Hend Hreach Hstep.
  pose proof (sync_ok_reachable _ _ _ _ Hreach) as (Hsem & Hcap & Hwg & Hmu).
  pose proof (ports_ok_reachable _ _ _ _ Hstart Hend Hreach) as (_ & _ & Hmain & _).
  destruct st as [m ws s k g ops]. cbn in Hsem, Hcap, Hwg, Hmu, Hmain.
  destruct c as [| i ok | i]; step_cases Hstep;
    unfold steps_left; cbn [main workers main_weight];
    rewrite ?weight_app; cbn [weight worker_weight snd]; try use_weight;
    try (cbn in Hmain);
    try (rewrite wrap_int_id by (unfold in_int; lia));
    unfold remaining; try lia.
  all: exfalso; cbn in *; try use_lookup in_critical; try use_lookup running; lia.
Qed.

Lemma reachable_step ps start end_ c st st' :
  reachable ps start end_ st → next ps start end_ c st = Some st' →
  reachable ps start end_ st'.
Proof.
  intros [sched Hexec] Hstep. exists (sched ++ [c]).
  revert Hexec. generalize initial. induction sched as [| c0 sched IH];
    intros st0 Hexec; cbn in *.
  - simplify_eq. by rewrite Hstep.
  - destruct (next ps start end_ c0 st0); [by apply IH | done].
Qed.

(** No schedule is longer than the steps left at the start. *)
Lemma schedule_bounded ps start end_ sched st :
  min_int ≤ start → end_ < max_int →
  exec ps start end_ sched initial = Some st →
  (length sched + steps_left start end_ st ≤ steps_left start end_ initial)%nat.
Proof.
  intros Hstart Hend.
  assert (∀ st0, reachable ps start end_ st0 →
            exec ps start end_ sched st0 = Some st →
            (length sched + steps_left start end_ st ≤ steps_left start end_ st0)%nat)
    as Hgen.
  { induction sched as [| c sched IH]; intros st0 Hreach Hexec; cbn in Hexec.
    - simplify_eq. cbn. lia.
    - destruct (next ps start end_ c st0) as [st1 |] eqn:Hstep; [| done].
      pose proof (steps_left_decrease _ _ _ _ _ _ Hstart Hend Hreach Hstep).
      pose proof (IH st1 (reachable_step _ _ _ _ _ _ Hreach Hstep) Hexec). cbn. lia. }
  apply Hgen. by exists [].
Qed.

(** With at least one thread allowed and [end] below the largest [int],
    the sweep can be run to its return from every state it reaches; with
    [schedule_bounded] and [GetOpenedPorts_progress], every execution
    carried on as long as a step exists ends there. *)
Lemma GetOpenedPorts_returns ps start end_ st :
  min_int ≤ start → end_ < max_int → 1 ≤ threads ps →
  reachable ps start end_ st →
  ∃ sched st' r, exec ps start end_ sched st = Some st' ∧ main st' = MReturn r.
Proof.
  intros Hstart Hend Hthreads.
  remember (steps_left start end_ st) as n eqn:Hn. revert st Hn.
  induction (lt_wf n) as [n _ IH]. intros st -> Hreach.
  destruct (GetOpenedPorts_progress ps start end_ st Hthreads Hreach)
    as [[r Hr] | (c & st1 & Hstep)].
  - by exists [], st, r.
  - destruct (IH (steps_left start end_ st1)
                (steps_left_decrease _ _ _ _ _ _ Hstart Hend Hreach Hstep)
                st1 eq_refl (reachable_step _ _ _ _ _ _ Hreach Hstep))
      as (sched & st' & r & Hexec & Hr).
    exists (c :: sched), st', r. split; [| done]. cbn. by rewrite Hstep.
Qed.

Lemma ports_in_order (start : Z) (ws : list (Z * worker_pc)) :
  (∀ i p pc, ws !! i = Some (p, pc) → p = start + Z.of_nat i) →
  ws.*1 = seqZ start (Z.of_nat (length ws)).
Proof.
  revert start. induction ws as [| [p pc] ws IH]; intros start Hport; [done |].
  cbn [fmap list_fmap length fst]. rewrite Nat2Z.inj_succ, seqZ_cons by lia.
  f_equal.
  - rewrite (Hport 0%nat p pc eq_refl). lia.
  - replace (Z.pred (Z.succ (Z.of_nat (length ws)))) with (Z.of_nat (length ws)) by lia.
    apply IH. intros i q pcq Hi. rewrite (Hport (S i) q pcq Hi). lia.
Qed.

(** *** The probes made before the return *)

Lemma answered_cons (w : Z * worker_pc) (ws : list (Z * worker_pc)) :
  answered (w :: ws) =
    match dialled w.2 with
    | Some b => (w.1, b) :: answered ws
    | None => answered ws
    end.
Proof. unfold answered. cbn. by destruct (dialled w.2). Qed.

Lemma answered_insert_same (ws : list (Z * worker_pc)) i p pc pc' :
  ws !! i = Some (p, pc) → dialled pc' = dialled pc →
  answered (<[i := (p, pc')]> ws) = answered ws.
Proof.
  revert i. induction ws as [| w ws IH]; intros [| i] Hi Heq; try done.
  - cbn in Hi. simplify_eq.
    change (<[0%nat := (p, pc')]> ((p, pc) :: ws)) with ((p, pc') :: ws).
    rewrite !answered_cons. cbn. by rewrite Heq.
  - cbn in Hi.
    change (<[S i := (p, pc')]> (w :: ws)) with (w :: <[i := (p, pc')]> ws).
    rewrite !answered_cons. by rewrite (IH i).
Qed.

Lemma answered_insert_dial (ws : list (Z * worker_pc)) i p pc' b :
  ws !! i = Some (p, WDial) → dialled pc' = Some b →
  answered (<[i := (p, pc')]> ws) ≡ₚ answered ws ++ [(p, b)].
Proof.
  revert i. induction ws as [| w ws IH]; intros [| i] Hi Heq; try done.
  - cbn in Hi. simplify_eq.
    change (<[0%nat := (p, pc')]> ((p, WDial) :: ws)) with ((p, pc') :: ws).
    rewrite !answered_cons. cbn. rewrite Heq.
    by rewrite Permutation_cons_append.
  - cbn in Hi.
    change (<[S i := (p, pc')]> (w :: ws)) with (w :: <[i := (p, pc')]> ws).
    rewrite !answered_cons. destruct (dialled w.2); cbn; by rewrite (IH i).
Qed.

(** Each step adds to the answered dials the dial it answers, if any. *)
Lemma answered_step ps start end_ c st st' :
  next ps start end_ c st = Some st' →
  answered (workers st') ≡ₚ answered (workers st) ++ option_list (dial_of c st).
Proof.
  intros Hstep. destruct st as [m ws s k g ops].
  destruct c as [| i ok | i]; unfold dial_of; cbn [workers].
  - step_cases Hstep; cbn [workers option_list]; rewrite app_nil_r; try done.
    unfold answered. by rewrite omap_app, app_nil_r.
  - step_cases Hstep; cbn [workers option_list]; rewrite ?app_nil_r; try done;
      try (by erewrite answered_insert_same);
      by eapply answered_insert_dial.
  - step_cases Hstep; cbn [workers option_list]; rewrite ?app_nil_r.
    by erewrite answered_insert_same.
Qed.

Lemma dials_answered ps start end_ sched st0 st :
  exec ps start end_ sched st0 = Some st →
  answered (workers st) ≡ₚ answered (workers st0) ++ dials ps start end_ sched st0.
Proof.
  revert st0. induction sched as [| c sched IH]; intros st0 Hexec; cbn in *.
  - simplify_eq. by rewrite app_nil_r.
  - destruct (next ps start end_ c st0) as [st1 |] eqn:Hstep; [| done].
    rewrite (IH st1 Hexec), (answered_step _ _ _ _ _ _ Hstep). by rewrite <- app_assoc.
Qed.

Lemma answered_elem_of (ws : list (Z * worker_pc)) p b :
  (p, b) ∈ answered ws ↔ ∃ i pc, ws !! i = Some (p, pc) ∧ dialled pc = Some b.
Proof.
  unfold answered. rewrite list_elem_of_omap. split.
  - intros ([q pc] & [i Hi]%list_elem_of_lookup & Hd). cbn in Hd.
    destruct (dialled pc) as [b' |] eqn:Hpc; cbn in Hd; simplify_eq. by exists i, pc.
  - intros (i & pc & Hi & Hd). exists (p, pc). split.
    + by eapply list_elem_of_lookup_2.
    + cbn. by rewrite Hd.
Qed.

Lemma answered_finished (ws : list (Z * worker_pc)) :
  count running ws = 0%nat → (answered ws).*1 = ws.*1.
Proof.
  induction ws as [| [p pc] ws IH]; [done |].
  cbn [count snd]. intros Hzero. destruct pc; cbn in Hzero; try lia.
  rewrite answered_cons. cbn. f_equal. apply IH. lia.
Qed.

(** C4. [GetOpenedPorts(start, end)] returns only after every port of the
    range has been probed: under every schedule that reaches the return,
    the dials answered before it are those of the ports [start..end], one
    for each port and none for any other, and the slice returned holds the
    ports whose dial obtained a connection, which lie in [start..end], each
    once.  At the return every port of the range has a worker, every
    worker has finished, and the ports of the slice are those of the
    workers in which [IsOpen] returned true.  With at least one thread
    allowed and [end] below the largest [int] the return is reached: no
    schedule is longer than the steps counted at the start, a state that
    is not the return has a next step, and every state can be run on to
    the return. *)
Theorem GetOpenedPorts_result (ps : PortScanner) (start end_ : Z) :
  in_int start → in_int end_ →
  (∀ sched st r,
     exec ps start end_ sched initial = Some st →
     main st = MReturn r →
     let log := dials ps start end_ sched initial in
     (∀ p, p ∈ r → start ≤ p ≤ end_)
     ∧ NoDup r
     ∧ log.*1 ≡ₚ seqZ start (end_ - start + 1)
     ∧ (∀ p, p ∈ r ↔ (p, true) ∈ log)
     ∧ (∀ p, start ≤ p ≤ end_ → p ∉ r → (p, false) ∈ log)
     ∧ (∀ p, start ≤ p ≤ end_ → ∃ i b, workers st !! i = Some (p, WExit b))
     ∧ (∀ i p pc, workers st !! i = Some (p, pc) → probed pc = true ∧ start ≤ p ≤ end_)
     ∧ (∀ p, p ∈ r ↔ ∃ i, workers st !! i = Some (p, WExit true)))
  ∧ (1 ≤ threads ps → end_ < max_int →
     ∀ sched st,
       exec ps start end_ sched initial = Some st →
       (length sched ≤ steps_left start end_ initial)%nat
       ∧ ((∃ r, main st = MReturn r) ∨ ∃ c st', next ps start end_ c st = Some st')
       ∧ ∃ sched' st' r,
           exec ps start end_ sched' st = Some st' ∧ main st' = MReturn r).
Proof.
  intros [Hstart Hstart'] [Hend' Hend]. split.
  - intros sched st r Hexec Hmain log.
    assert (reachable ps start end_ st) as Hreach by (by exists sched).
    destruct (decide (end_ = max_int)) as [-> | Hne].
    { apply never_leaves_loop_reachable in Hreach; [| done].
      unfold never_leaves_loop in Hreach. by rewrite Hmain in Hreach. }
    apply ports_ok_reachable in Hreach; [| done | lia].
    destruct Hreach as (Hport & Hlen & Hret & Hnd & Hopen & _).
    rewrite Hmain in Hret. destruct Hret as (Hall & -> & Hdone).
    assert (∀ i p pc, workers st !! i = Some (p, pc) → start ≤ p ≤ end_) as Hrange.
    { intros i p pc Hi. pose proof (Hport _ _ _ Hi) as ->.
      pose proof (lookup_lt_Some _ _ _ Hi) as Hlt.
      assert (workers st ≠ []) as Hnil by (intros Hnil; by rewrite Hnil in Hi).
      specialize (Hlen Hnil). lia. }
    assert (∀ p, start ≤ p ≤ end_ → ∃ i b, workers st !! i = Some (p, WExit b)) as Hevery.
    { intros p Hp.
      destruct (lookup_lt_is_Some_2 (workers st) (Z.to_nat (p - start))) as [[q pc] Hi]; [lia |].
      pose proof (Hport _ _ _ Hi) as ->.
      destruct (finished_worker _ _ _ _ Hdone Hi) as [b ->].
      exists (Z.to_nat (p - start)), b. rewrite Hi. do 2 f_equal. lia. }
    assert (∀ p, p ∈ openPorts st ↔ ∃ i, workers st !! i = Some (p, WExit true)) as Hfound.
    { intros p. rewrite Hopen. split.
      - intros (i & pc & Hi & Happ). exists i.
        destruct (finished_worker _ _ _ _ Hdone Hi) as [b ->]. by destruct b.
      - intros [i Hi]. by exists i, (WExit true). }
    assert (log ≡ₚ answered (workers st)) as Hlog.
    { by rewrite (dials_answered _ _ _ _ _ _ Hexec). }
    assert (∀ p b, (p, b) ∈ log ↔ ∃ i, workers st !! i = Some (p, WExit b)) as Hentry.
    { intros p b. rewrite Hlog, answered_elem_of. split.
      - intros (i & pc & Hi & Hd). exists i.
        destruct (finished_worker _ _ _ _ Hdone Hi) as [b' ->]. cbn in Hd. by simplify_eq.
      - intros [i Hi]. by exists i, (WExit b). }
    assert (length (workers st) = Z.to_nat (end_ - start + 1)) as Hn.
    { destruct (workers st) as [| w ws] eqn:Hws; [cbn in *; lia |].
      assert (w :: ws ≠ []) as Hnil by done. specialize (Hlen Hnil). lia. }
    split_and!.
    + intros p (i & pc & Hi & _)%Hopen. by eapply Hrange.
    + done.
    + rewrite Hlog, (answered_finished _ Hdone), (ports_in_order start) by done.
      rewrite Hn. destruct (decide (0 ≤ end_ - start + 1)).
      * by rewrite Z2Nat.id by lia.
      * replace (Z.to_nat (end_ - start + 1)) with 0%nat by lia.
        by rewrite !seqZ_nil by lia.
    + intros p. by rewrite Hfound, Hentry.
    + intros p Hp Hnot. destruct (Hevery p Hp) as (i & [] & Hi).
      * exfalso. apply Hnot. apply Hfound. by exists i.
      * apply Hentry. by exists i.
    + exact Hevery.
    + intros i p pc Hi. split; [| by eapply Hrange].
      by destruct (finished_worker _ _ _ _ Hdone Hi) as [b ->].
    + exact Hfound.
  - intros Hthreads Hlast sched st Hexec.
    assert (reachable ps start end_ st) as Hreach by (by exists sched).
    split_and!.
    + pose proof (schedule_bounded _ _ _ _ _ Hstart Hlast Hexec). lia.
    + by apply GetOpenedPorts_progress.
    + by apply GetOpenedPorts_returns.
Qed.

End Properties.

(** * Further properties of the code *)

Section Further.

Context `{Packages}.

#[local] Arguments opened : simpl never.
#[local] Arguments closed : simpl never.
#[local] Arguments dial_timeouts : simpl never.
#[local] Arguments resolved : simpl never.
#[local] Arguments predictors_asked : simpl never.

(** ** Replaying programs *)

Lemma events_bind {W R S : Type} (h : handler W) (m : prog R) (f : R → prog S) (w : W) :
  events h (m ≫= f) w =
    events h m w ++ events h (f (result_of (run h m w))) (world_of (run h m w)).
Proof.
  unfold mbind, prog_bind. revert w.
  induction m as [r | X e k IH]; intros w; cbn; [done |]. by rewrite IH.
Qed.

Lemma opened_app (l1 l2 : list event) : opened (l1 ++ l2) = opened l1 ++ opened l2.
Proof. apply omap_app. Qed.

Lemma closed_app (l1 l2 : list event) : closed (l1 ++ l2) = closed l1 ++ closed l2.
Proof. apply omap_app. Qed.

Lemma dial_timeouts_app (l1 l2 : list event) :
  dial_timeouts (l1 ++ l2) = dial_timeouts l1 ++ dial_timeouts l2.
Proof. apply omap_app. Qed.

Lemma resolved_app (l1 l2 : list event) : resolved (l1 ++ l2) = resolved l1 ++ resolved l2.
Proof. apply omap_app. Qed.

Lemma predictors_asked_app (l1 l2 : list event) :
  predictors_asked (l1 ++ l2) = predictors_asked l1 ++ predictors_asked l2.
Proof. apply omap_app. Qed.

(** The [Close] calls on a list of connections, as events. *)
Lemma run_deferred_events {W : Type} (h : handler W) (l : list Conn) (w : W) :
  events h (run_deferred l) w = close_event <$> l.
Proof.
  revert w. induction l as [| c l IH]; intros w; [done |].
  cbn. destruct (h _ (Close c) w) as [[] w1]. cbn. by rewrite IH.
Qed.

Lemma closes_closed (l : list Conn) :
  closed (close_event <$> l) = l.
Proof. induction l as [| c l IH]; [done |]. unfold closed in *. cbn. by rewrite IH. Qed.

Lemma closes_opened (l : list Conn) :
  opened (close_event <$> l) = [].
Proof. induction l as [| c l IH]; [done |]. unfold opened in *. by cbn. Qed.

Lemma closes_dial_timeouts (l : list Conn) :
  dial_timeouts (close_event <$> l) = [].
Proof. induction l as [| c l IH]; [done |]. unfold dial_timeouts in *. by cbn. Qed.

Lemma closes_resolved (l : list Conn) :
  resolved (close_event <$> l) = [].
Proof. induction l as [| c l IH]; [done |]. unfold resolved in *. by cbn. Qed.

Lemma closes_asked (l : list Conn) :
  predictors_asked (close_event <$> l) = [].
Proof. induction l as [| c l IH]; [done |]. unfold predictors_asked in *. by cbn. Qed.

(** What [openConn] leaves in the log: one resolution of the address, no
    close, no predictor; a dial with the scanner's timeout when the
    resolution succeeded; and the connection it returns is the one the dial
    opened. *)
Lemma openConn_events {W : Type} (h : handler W) ps hp (w : W) :
  let evs := events h (openConn ps hp) w in
  closed evs = [] ∧ predictors_asked evs = [] ∧ resolved evs = [hp]
  ∧ omap read_outcome evs = []
  ∧ Forall (λ d, d = timeout ps) (dial_timeouts evs)
  ∧ (length (dial_timeouts evs) ≤ 1)%nat
  ∧ opened evs = match result_of (run h (openConn ps hp) w) with
                 | inl conn => [conn]
                 | inr _ => []
                 end.
Proof.
  cbn zeta. unfold openConn. cbn.
  destruct (h _ (ResolveTCPAddr "tcp4" hp) w) as [[addr | err] w1]; cbn.
  - unfold closed, predictors_asked, resolved, dial_timeouts, opened. cbn.
    destruct (h _ (DialTimeout "tcp" addr (timeout ps)) w1) as [[conn | err] w2]; cbn;
      split_and!; try done; by repeat constructor.
  - unfold closed, predictors_asked, resolved, dial_timeouts, opened. cbn.
    split_and!; try done; try lia; by constructor.
Qed.

(** ** [IsOpen] *)

(** X1. [IsOpen] makes one dial, with the scanner's timeout and without
    resolving the address first; it reports [true] exactly when the dial
    handed out a connection, and it has closed that connection when it
    returns. *)
Theorem IsOpen_dials_once_and_closes {W : Type} (h : handler W) (ps : PortScanner)
    (port : Z) (w : W) :
  let evs := events h (IsOpen ps port) w in
  dial_timeouts evs = [timeout ps]
  ∧ resolved evs = []
  ∧ closed evs = opened evs
  ∧ (result_of (run h (IsOpen ps port) w) = true ↔ opened evs ≠ []).
Proof.
  cbn zeta. unfold IsOpen. cbn.
  unfold dial_timeouts, resolved, closed, opened. cbn.
  destruct (h _ (DialTimeout "tcp" (hostPort ps port) (timeout ps)) w) as [[conn | err] w1];
    cbn; split_and!; try done.
Qed.

(** ** The predictor chain *)

Lemma predict_loop_events {W : Type} (h : handler W) ps hp l deferred (w : W) :
  ∃ body,
    events h (predict_loop ps hp l deferred) w
      = body ++ (close_event <$> (rev (opened body) ++ deferred))
    ∧ closed body = []
    ∧ omap read_outcome body = []
    ∧ Forall (λ d, d = timeout ps) (dial_timeouts body)
    ∧ Forall (λ a, a = hp) (resolved body)
    ∧ (length (resolved body) ≤ length l)%nat
    ∧ (length (dial_timeouts body) ≤ length (resolved body))%nat
    ∧ predictors_asked body `sublist_of` l
    ∧ length (predictors_asked body) = length (opened body).
Proof.
  revert deferred w. induction l as [| p l IH]; intros deferred w.
  - exists []. cbn [predict_loop]. rewrite events_bind, run_deferred_events. cbn.
    rewrite app_nil_r. split_and!; try done; by constructor.
  - cbn [predict_loop]. rewrite events_bind.
    destruct (openConn_events h ps hp w)
      as (Hclosed & Hasked & Hres & Hread & Htime & Hdial & Hopened).
    destruct (result_of (run h (openConn ps hp) w)) as [conn | err].
    + rewrite events_bind. cbn [trigger events run result_of world_of fst snd].
      set (w1 := world_of (run h (openConn ps hp) w)) in *.
      set (eo := events h (openConn ps hp) w) in *.
      set (ans := h _ (Predict p hp) w1).
      set (pe := (existT _ (Predict p hp, ans.1) : event)).
      destruct (bool_decide (0 < len ans.1)%nat).
      * exists (eo ++ [pe]). rewrite events_bind, run_deferred_events.
        change (events h (mret ans.1) _) with (@nil event).
        rewrite !opened_app, !closed_app, !dial_timeouts_app, !resolved_app,
          !predictors_asked_app, omap_app, Hclosed, Hasked, Hres, Hread, Hopened.
        change (opened [pe]) with (@nil Conn).
        change (closed [pe]) with (@nil Conn).
        change (dial_timeouts [pe]) with (@nil Duration).
        change (resolved [pe]) with (@nil string).
        change (predictors_asked [pe]) with [p].
        change (omap read_outcome [pe]) with (@nil (list byte * option error)).
        cbn [app rev]. rewrite !app_nil_r. cbn [length app].
        split_and!; try done; try lia.
        -- by rewrite <- app_assoc.
        -- by apply Forall_cons.
        -- apply sublist_skip, sublist_nil_l.
      * destruct (IH (conn :: deferred) ans.2)
          as (body & Hev & Hc & Hr & Ht & Ha & Hl & Hd & Hs & Hn).
        exists (eo ++ [pe] ++ body). rewrite Hev.
        rewrite !opened_app, !closed_app, !dial_timeouts_app, !resolved_app,
          !predictors_asked_app, !omap_app, Hclosed, Hasked, Hres, Hread, Hopened, Hc, Hr.
        change (opened [pe]) with (@nil Conn).
        change (closed [pe]) with (@nil Conn).
        change (dial_timeouts [pe]) with (@nil Duration).
        change (resolved [pe]) with (@nil string).
        change (predictors_asked [pe]) with [p].
        change (omap read_outcome [pe]) with (@nil (list byte * option error)).
        cbn [app]. rewrite ?app_nil_r, ?length_app. cbn [length].
        split_and!; try done; try lia.
        -- rewrite <- app_assoc. cbn [app rev]. by rewrite <- (app_assoc _ [conn]).
        -- by apply Forall_app.
        -- by apply Forall_cons.
        -- by apply sublist_skip.
    + destruct (IH deferred (world_of (run h (openConn ps hp) w)))
        as (body & Hev & Hc & Hr & Ht & Ha & Hl & Hd & Hs & Hn).
      exists (events h (openConn ps hp) w ++ body). rewrite Hev.
      rewrite !opened_app, !closed_app, !dial_timeouts_app, !resolved_app,
        !predictors_asked_app, !omap_app, Hclosed, Hasked, Hres, Hread, Hopened, Hc, Hr.
      cbn [app]. rewrite !length_app. cbn [length]. split_and!; try done; try lia.
      -- by rewrite <- app_assoc.
      -- by apply Forall_app.
      -- by apply Forall_cons.
      -- by apply sublist_cons.
Qed.

Lemma closes_reads (l : list Conn) : omap read_outcome (close_event <$> l) = [].
Proof. induction l as [| c l IH]; [done |]. by cbn. Qed.

Lemma PredictUsingPredictor_events {W : Type} (h : handler W) ps hp (w : W) :
  let evs := events h (PredictUsingPredictor ps hp) w in
  closed evs = rev (opened evs)
  ∧ omap read_outcome evs = []
  ∧ Forall (λ d, d = timeout ps) (dial_timeouts evs).
Proof.
  cbn zeta. unfold PredictUsingPredictor.
  destruct (predict_loop_events h ps hp (predictors ps) [] w)
    as (body & Hev & Hc & Hr & Ht & _).
  rewrite Hev, app_nil_r.
  rewrite closed_app, opened_app, omap_app, dial_timeouts_app, Hc, Hr,
    closes_closed, closes_opened, closes_reads, closes_dial_timeouts, !app_nil_r.
  done.
Qed.

(** X2. [PredictUsingPredictor] keeps every connection it opens until it
    returns: its calls are a body without any [Close], followed by the
    [Close] of each connection the body opened, the most recent first; so
    the connections closed are those opened, in reverse order. *)
Theorem PredictUsingPredictor_closes_at_return {W : Type} (h : handler W)
    (ps : PortScanner) (hostport : string) (w : W) :
  let evs := events h (PredictUsingPredictor ps hostport) w in
  (∃ body, evs = body ++ (close_event <$> rev (opened body)) ∧ closed body = [])
  ∧ closed evs = rev (opened evs).
Proof.
  cbn zeta. unfold PredictUsingPredictor.
  destruct (predict_loop_events h ps hostport (predictors ps) [] w)
    as (body & Hev & Hc & _).
  rewrite app_nil_r in Hev. rewrite Hev. split; [by exists body |].
  by rewrite closed_app, opened_app, Hc, closes_closed, closes_opened, app_nil_r.
Qed.

(** X3. [PredictUsingPredictor] tries each registered predictor at most
    once and never retries: it resolves the same address at most once per
    predictor, dials (with the scanner's timeout) only after a resolution,
    asks the predictors in registration order, one per connection it
    obtained, and never reads from a connection. *)
Theorem PredictUsingPredictor_one_attempt_each {W : Type} (h : handler W)
    (ps : PortScanner) (hostport : string) (w : W) :
  let evs := events h (PredictUsingPredictor ps hostport) w in
  Forall (λ a, a = hostport) (resolved evs)
  ∧ (length (resolved evs) ≤ length (predictors ps))%nat
  ∧ (length (dial_timeouts evs) ≤ length (resolved evs))%nat
  ∧ Forall (λ d, d = timeout ps) (dial_timeouts evs)
  ∧ predictors_asked evs `sublist_of` predictors ps
  ∧ length (predictors_asked evs) = length (opened evs)
  ∧ omap read_outcome evs = [].
Proof.
  cbn zeta. unfold PredictUsingPredictor.
  destruct (predict_loop_events h ps hostport (predictors ps) [] w)
    as (body & Hev & Hc & Hr & Ht & Ha & Hl & Hd & Hs & Hn).
  rewrite Hev.
  rewrite resolved_app, dial_timeouts_app, predictors_asked_app, opened_app, omap_app,
    closes_resolved, closes_dial_timeouts, closes_asked, closes_opened, closes_reads, Hr,
    !app_nil_r.
  by split_and!.
Qed.

Lemma predict_loop_unreachable {W : Type} (h : handler W) ps hp l deferred (w : W) :
  unreachable h ps hp →
  let evs := events h (predict_loop ps hp l deferred) w in
  result_of (run h (predict_loop ps hp l deferred) w) = UNKNOWN
  ∧ predictors_asked evs = []
  ∧ opened evs = []
  ∧ closed evs = deferred
  ∧ length (resolved evs) = length l.
Proof.
  intros Hun. cbn zeta. revert w. induction l as [| p l IH]; intros w.
  - cbn [predict_loop]. rewrite result_mbind, events_bind, run_deferred_events.
    change (events h (mret UNKNOWN) _) with (@nil event). rewrite app_nil_r.
    by rewrite closes_asked, closes_opened, closes_closed, closes_resolved.
  - cbn [predict_loop]. rewrite result_mbind, events_bind.
    destruct (openConn_events h ps hp w)
      as (Hclosed & Hasked & Hres & _ & _ & _ & Hopened).
    destruct (Hun w) as [err Herr]. rewrite Herr in *.
    destruct (IH (world_of (run h (openConn ps hp) w))) as (Hr & Ha & Ho & Hc & Hl).
    rewrite predictors_asked_app, opened_app, closed_app, resolved_app,
      Hclosed, Hasked, Hres, Hopened, Ha, Ho, Hc, length_app, Hl.
    by split_and!.
Qed.

(** X4. When every connection attempt to the address fails,
    [PredictUsingPredictor] gives the unknown sentinel without asking any
    predictor and with nothing to close, after one attempt per registered
    predictor. *)
Theorem PredictUsingPredictor_unreachable {W : Type} (h : handler W)
    (ps : PortScanner) (hostport : string) (w : W) :
  unreachable h ps hostport →
  let evs := events h (PredictUsingPredictor ps hostport) w in
  result_of (run h (PredictUsingPredictor ps hostport) w) = UNKNOWN
  ∧ predictors_asked evs = []
  ∧ opened evs = []
  ∧ closed evs = []
  ∧ length (resolved evs) = length (predictors ps).
Proof. intros Hun. by apply predict_loop_unreachable. Qed.

(** ** The table *)

Lemma table_labels :
  Forall (λ e : Z * string, e.2 ≠ "" ∧ e.2 ≠ UNKNOWN ∧ (e.2 = "MySQL" → e.1 = 3306))
    spec_table.
Proof. unfold spec_table. repeat constructor; (done || (intros ?; by simplify_eq)). Qed.

Lemma KNOWN_PORTS_label (port : Z) (l : string) :
  KNOWN_PORTS !! port = Some l →
  l ≠ "" ∧ l ≠ UNKNOWN ∧ (l = "MySQL" → port = 3306).
Proof.
  intros Hl. change KNOWN_PORTS with (list_to_map spec_table : gmap Z string) in Hl.
  apply elem_of_list_to_map_2 in Hl.
  pose proof table_labels as Hall. rewrite Forall_forall in Hall.
  apply (Hall _ Hl).
Qed.

Lemma predictPort_nonempty (port : Z) : predictPort port ≠ "".
Proof.
  unfold predictPort. destruct (KNOWN_PORTS !! port) as [l |] eqn:Hl; [| done].
  by destruct (KNOWN_PORTS_label _ _ Hl) as (Hne & _).
Qed.

Lemma predictPort_MySQL_port (port : Z) : predictPort port = "MySQL" → port = 3306.
Proof.
  unfold predictPort. destruct (KNOWN_PORTS !! port) as [l |] eqn:Hl; [| done].
  intros ->. by destruct (KNOWN_PORTS_label _ _ Hl) as (_ & _ & ->).
Qed.

(** X5. The unknown sentinel is not a label of the table and no label is
    empty: [predictPort] gives the sentinel exactly for the ports that are
    not keys of [KNOWN_PORTS], and never the empty string. *)
Theorem predictPort_sentinel (port : Z) :
  (predictPort port = UNKNOWN ↔ KNOWN_PORTS !! port = None)
  ∧ predictPort port ≠ "".
Proof.
  unfold predictPort. destruct (KNOWN_PORTS !! port) as [l |] eqn:Hl.
  - destruct (KNOWN_PORTS_label _ _ Hl) as (Hne & Hnu & _).
    split; [| done]. split; [done | by intros ?].
  - split; [done | by intros ?].
Qed.

(** X6. 3306 is the only port the table labels ["MySQL"], so it is the
    only port on which [DescribePort] starts the follow-up. *)
Theorem predictPort_MySQL (port : Z) : predictPort port = "MySQL" ↔ port = 3306.
Proof. split; [apply predictPort_MySQL_port | by intros ->]. Qed.

(** ** [DescribePort] *)

Lemma DescribePort_cases (ps : PortScanner) (port : Z) :
  (usePredictor ps = false ∧ DescribePort ps port = Ret (predictPort port))
  ∨ (usePredictor ps = true ∧ (IsHttp port = true ∨ predictPort port = UNKNOWN)
     ∧ ∀ (W : Type) (h : handler W) (w : W),
         run h (DescribePort ps port) w
           = run h (PredictUsingPredictor ps (hostPort ps port)) w
         ∧ events h (DescribePort ps port) w
           = events h (PredictUsingPredictor ps (hostPort ps port)) w)
  ∨ (usePredictor ps = true ∧ port = 3306
     ∧ DescribePort ps port = getMySQLVersion ps port "MySQL")
  ∨ (usePredictor ps = true ∧ IsHttp port = false
     ∧ predictPort port ≠ UNKNOWN ∧ predictPort port ≠ "MySQL"
     ∧ DescribePort ps port = Ret (predictPort port)).
Proof.
  unfold DescribePort. destruct (usePredictor ps); cbn [negb]; [| by left].
  right. destruct (IsHttp port) eqn:Hhttp.
  { left. split_and!; [done | by left |]. done. }
  destruct (decide (predictPort port = UNKNOWN)) as [Hun | Hun].
  { left. split_and!; [done | by right |]. intros W h w. rewrite Hun.
    destruct (decide (UNKNOWN = "MySQL")) as [Hbad | _]; [discriminate |].
    split; [apply run_bind_ret |]. rewrite events_bind. apply app_nil_r. }
  right. destruct (decide (predictPort port = "MySQL")) as [Hmy | Hmy].
  - left. pose proof Hmy as ->%predictPort_MySQL_port. split_and!; [done | done |].
    change (predictPort 3306) with "MySQL". cbn.
    by destruct (decide ("MySQL" = "MySQL")).
  - right. by split_and!.
Qed.

(** X7. With the predictor switched on, a port the table knows that is
    neither an HTTP port nor the MySQL port is described by its table label
    without any network call. *)
Theorem DescribePort_known_port (ps : PortScanner) (port : Z) :
  usePredictor ps = true →
  IsHttp port = false →
  predictPort port ≠ UNKNOWN →
  predictPort port ≠ "MySQL" →
  ∀ (W : Type) (h : handler W) (w : W),
    run h (DescribePort ps port) w = (predictPort port, w, [])
    ∧ events h (DescribePort ps port) w = [].
Proof.
  intros Hon Hhttp Hun Hmy W h w.
  destruct (DescribePort_cases ps port)
    as [[Hoff _] | [(_ & [Hh | Hu] & _) | [(_ & -> & _) | (_ & _ & _ & _ & ->)]]];
    try congruence; try done.
Qed.

(** ** The MySQL follow-up, as the code does it *)

Lemma fill_make_bytes (n : nat) (data : list byte) :
  fill (make_bytes n) data = take n data ++ make_bytes (n - length data).
Proof.
  unfold fill, make_bytes. by rewrite length_replicate, drop_replicate.
Qed.

Lemma getMySQLVersion_events {W : Type} (h : handler W) (ps : PortScanner)
    (port : Z) (assumed : string) (w : W) :
  let evs := events h (getMySQLVersion ps port assumed) w in
  let res := result_of (run h (getMySQLVersion ps port assumed) w) in
  closed evs = opened evs
  ∧ (length (opened evs) ≤ 1)%nat
  ∧ predictors_asked evs = []
  ∧ resolved evs = [hostPort ps port]
  ∧ Forall (λ d, d = timeout ps) (dial_timeouts evs)
  ∧ match omap read_outcome evs with
    | [] => opened evs = [] ∧ res = assumed
    | [(data, None)] =>
        length (opened evs) = 1%nat
        ∧ res = assumed +:+ " version: "
                  +:+ string_of_bytes (take 20 data ++ make_bytes (20 - length data))
    | [(data, Some _)] => length (opened evs) = 1%nat ∧ res = assumed
    | _ => False
    end.
Proof.
  cbn zeta. unfold getMySQLVersion. rewrite events_bind, result_mbind.
  destruct (openConn_events h ps (hostPort ps port) w)
    as (Hclosed & Hasked & Hres & Hread & Htime & Hdial & Hopened).
  rewrite closed_app, opened_app, predictors_asked_app, resolved_app, dial_timeouts_app,
    omap_app, Hclosed, Hasked, Hres, Hread, Hopened.
  destruct (result_of (run h (openConn ps (hostPort ps port)) w)) as [conn | err].
  - set (w1 := world_of (run h (openConn ps (hostPort ps port)) w)).
    cbn [length make_bytes replicate].
    cbn [mbind prog_bind bind trigger run events result_of world_of fst snd].
    set (rd := (h _ (Read conn 20) _).1).
    change (fill _ rd.1) with (fill (make_bytes 20) rd.1).
    rewrite (fill_make_bytes 20).
    remember (events h (openConn ps (hostPort ps port)) w) as eo eqn:Heo.
    remember (dial_timeouts eo) as dt eqn:Hdt.
    destruct rd as [data [err |]];
      cbn [mbind prog_bind bind trigger run run_deferred events result_of world_of fst snd];
      unfold closed, opened, predictors_asked, resolved, dial_timeouts; cbn;
      rewrite ?app_nil_r; by split_and!.
  - change (events h (mret assumed) _) with (@nil event).
    change (result_of (run h (mret assumed) _)) with assumed.
    rewrite !app_nil_r. change (omap read_outcome []) with (@nil (list byte * option error)).
    split_and!; try done. cbn. lia.
Qed.

(** The dials of [openConn], counted whether they succeed or fail: at most
    one, and a connection comes from a dial only. *)
Lemma openConn_dials {W : Type} (h : handler W) ps hp (w : W) :
  let evs := events h (openConn ps hp) w in
  (length (dial_timeouts evs) ≤ 1)%nat
  ∧ (length (opened evs) ≤ length (dial_timeouts evs))%nat.
Proof.
  cbn zeta. unfold openConn. cbn.
  destruct (h _ (ResolveTCPAddr "tcp4" hp) w) as [[addr | err] w1]; cbn.
  - unfold dial_timeouts, opened. cbn.
    destruct (h _ (DialTimeout "tcp" addr (timeout ps)) w1) as [[conn | err] w2]; cbn; lia.
  - unfold dial_timeouts, opened. cbn. lia.
Qed.

(** After [openConn], [getMySQLVersion] dials no more and opens nothing. *)
Lemma getMySQLVersion_dials {W : Type} (h : handler W) (ps : PortScanner)
    (port : Z) (assumed : string) (w : W) :
  let evs := events h (getMySQLVersion ps port assumed) w in
  dial_timeouts evs = dial_timeouts (events h (openConn ps (hostPort ps port)) w)
  ∧ opened evs = opened (events h (openConn ps (hostPort ps port)) w).
Proof.
  cbn zeta. unfold getMySQLVersion. rewrite events_bind.
  rewrite dial_timeouts_app, opened_app.
  destruct (result_of (run h (openConn ps (hostPort ps port)) w)) as [conn | err].
  - set (w1 := world_of (run h (openConn ps (hostPort ps port)) w)).
    cbn [length make_bytes replicate].
    cbn [mbind prog_bind bind trigger run events result_of world_of fst snd].
    set (rd := (h _ (Read conn 20) _).1).
    remember (events h (openConn ps (hostPort ps port)) w) as eo eqn:Heo.
    remember (dial_timeouts eo) as dt eqn:Hdt.
    remember (opened eo) as op eqn:Hop.
    destruct rd as [data [err |]];
      cbn [mbind prog_bind bind trigger run run_deferred events result_of world_of fst snd];
      unfold opened, dial_timeouts; cbn; by rewrite ?app_nil_r.
  - change (events h (mret assumed) _) with (@nil event).
    by rewrite !app_nil_r.
Qed.

(** X8. [getMySQLVersion] resolves the address once, dials at most once
    with the scanner's timeout, asks no predictor, and has closed the
    connection it obtained when it returns.  Without a connection it makes
    no read and returns the guess; otherwise it makes one read, and returns
    the guess when the read fails, and the guess, [" version: "] and 20
    bytes (the bytes delivered, cut at 20, then zero bytes) when it
    succeeds. *)
Theorem getMySQLVersion_outcomes {W : Type} (h : handler W) (ps : PortScanner)
    (port : Z) (assumed : string) (w : W) :
  let evs := events h (getMySQLVersion ps port assumed) w in
  let res := result_of (run h (getMySQLVersion ps port assumed) w) in
  closed evs = opened evs
  ∧ (length (opened evs) ≤ 1)%nat
  ∧ (length (dial_timeouts evs) ≤ 1)%nat
  ∧ (length (opened evs) ≤ length (dial_timeouts evs))%nat
  ∧ predictors_asked evs = []
  ∧ resolved evs = [hostPort ps port]
  ∧ Forall (λ d, d = timeout ps) (dial_timeouts evs)
  ∧ match omap read_outcome evs with
    | [] => opened evs = [] ∧ res = assumed
    | [(data, None)] =>
        length (opened evs) = 1%nat
        ∧ res = assumed +:+ " version: "
                  +:+ string_of_bytes (take 20 data ++ make_bytes (20 - length data))
    | [(data, Some _)] => length (opened evs) = 1%nat ∧ res = assumed
    | _ => False
    end.
Proof.
  cbn zeta.
  destruct (getMySQLVersion_events h ps port assumed w)
    as (Hclosed & Hopened & Hasked & Hres & Htime & Hread).
  destruct (getMySQLVersion_dials h ps port assumed w) as [Hdials Hconns].
  destruct (openConn_dials h ps (hostPort ps port) w) as [Hone Hfrom].
  split_and!; try done.
  - by rewrite Hdials.
  - by rewrite Hdials, Hconns.
Qed.

(** ** [DescribePort] as a whole *)

Lemma predict_loop_nonempty {W : Type} (h : handler W) ps hp l deferred (w : W) :
  result_of (run h (predict_loop ps hp l deferred) w) ≠ "".
Proof.
  revert deferred w. induction l as [| p l IH]; intros deferred w.
  - cbn [predict_loop]. by rewrite result_mbind.
  - cbn [predict_loop]. rewrite result_mbind.
    destruct (result_of (run h (openConn ps hp) w)) as [conn | err]; [| apply IH].
    rewrite result_mbind. cbn [trigger run result_of world_of fst snd].
    destruct (bool_decide (0 < len _)%nat) eqn:Hlen; [| apply IH].
    rewrite result_mbind. cbn [mret prog_ret run result_of fst].
    apply bool_decide_eq_true in Hlen. intros Hempty. rewrite Hempty in Hlen.
    cbn in Hlen. lia.
Qed.

Lemma append_nonempty (a b : string) : a ≠ "" → a +:+ b ≠ "".
Proof. by destruct a. Qed.

(** X9. Whatever the port, the scanner and the environment,
    [DescribePort] returns a non-empty description. *)
Theorem DescribePort_never_empty {W : Type} (h : handler W) (ps : PortScanner)
    (port : Z) (w : W) :
  result_of (run h (DescribePort ps port) w) ≠ "".
Proof.
  destruct (DescribePort_cases ps port)
    as [[_ ->] | [(_ & _ & Hrun) | [(_ & _ & ->) | (_ & _ & _ & _ & ->)]]].
  - apply predictPort_nonempty.
  - destruct (Hrun W h w) as [-> _]. apply predict_loop_nonempty.
  - destruct (getMySQLVersion_events h ps port "MySQL" w) as (_ & _ & _ & _ & _ & Hres).
    cbn zeta in Hres.
    destruct (omap read_outcome _) as [| [data [err |]] [| ? ?]]; try done;
      destruct Hres as [_ ->]; done.
  - apply predictPort_nonempty.
Qed.

(** X10. [DescribePort] reads from a connection for port 3306 only: on
    every other port, whatever the scanner, no [conn.Read] is made. *)
Theorem DescribePort_reads_only_3306 {W : Type} (h : handler W) (ps : PortScanner)
    (port : Z) (w : W) :
  port ≠ 3306 →
  omap read_outcome (events h (DescribePort ps port) w) = [].
Proof.
  intros Hport.
  destruct (DescribePort_cases ps port)
    as [[_ ->] | [(_ & _ & Hrun) | [(_ & ? & _) | (_ & _ & _ & _ & ->)]]];
    try done.
  destruct (Hrun W h w) as [_ ->].
  apply PredictUsingPredictor_events.
Qed.

(** X11. Every dial [DescribePort] and [IsOpen] make carries the
    scanner's timeout, so a timeout set with [SetTimeout] is the one used
    by all of them. *)
Theorem SetTimeout_is_used {W : Type} (h : handler W) (ps : PortScanner)
    (t : Duration) (port : Z) (w : W) :
  Forall (λ d, d = t) (dial_timeouts (events h (DescribePort (SetTimeout ps t) port) w))
  ∧ dial_timeouts (events h (IsOpen (SetTimeout ps t) port) w) = [t].
Proof.
  split; [| by unfold IsOpen; cbn; destruct (h _ _ w) as [[conn | err] w1]].
  destruct (DescribePort_cases (SetTimeout ps t) port)
    as [[_ ->] | [(_ & _ & Hrun) | [(_ & _ & ->) | (_ & _ & _ & _ & ->)]]].
  - constructor.
  - destruct (Hrun W h w) as [_ ->].
    apply (PredictUsingPredictor_events h (SetTimeout ps t)).
  - apply (getMySQLVersion_events h (SetTimeout ps t)).
  - constructor.
Qed.

(** X12. [DescribePort] leaves no connection open: the connections it
    closes are the connections it opened, in reverse order of opening. *)
Theorem DescribePort_closes_what_it_opens {W : Type} (h : handler W)
    (ps : PortScanner) (port : Z) (w : W) :
  let evs := events h (DescribePort ps port) w in
  closed evs = rev (opened evs).
Proof.
  cbn zeta.
  destruct (DescribePort_cases ps port)
    as [[_ ->] | [(_ & _ & Hrun) | [(_ & _ & ->) | (_ & _ & _ & _ & ->)]]];
    try done.
  - destruct (Hrun W h w) as [_ ->]. apply PredictUsingPredictor_events.
  - destruct (getMySQLVersion_events h ps port "MySQL" w) as (Hc & Hl & _).
    rewrite Hc. by destruct (opened _) as [| c [| c' l]]; [| | cbn in Hl; lia].
Qed.

(** ** Addresses *)

Lemma append_cancel (a b c : string) : a +:+ b = a +:+ c → b = c.
Proof.
  induction a as [| x a IH]; [done |].
  intros Heq. apply IH. by injection Heq.
Qed.

(** X13. For one host, different ports give different addresses:
    [hostPort] is injective in the port. *)
Theorem hostPort_injective (ps : PortScanner) (p q : Z) :
  p ≠ q → hostPort ps p ≠ hostPort ps q.
Proof.
  unfold hostPort. intros Hne Heq. apply Hne.
  do 2 apply append_cancel in Heq. by apply (inj pretty).
Qed.

(** ** The registry and the setters *)

Lemma apply_op_prefix (ps : PortScanner) (o : op) :
  predictors ps `prefix_of` predictors (apply_op ps o).
Proof.
  destruct o; cbn; try done. apply RegisterPredictor_prefix.
Qed.

(** X14. The two predictors the constructor installs stay at the head of
    the registry, in that order, whatever is done to the scanner
    afterwards; no operation removes or moves an entry, and
    [TogglePredictor], [SetThreads] and [SetTimeout] leave the registry as
    it is. *)
Theorem default_predictors_stay_first (ps : PortScanner) :
  constructed ps →
  [ApachePredictor; NginxPredictor] `prefix_of` predictors ps
  ∧ (∀ o, predictors ps `prefix_of` predictors (apply_op ps o))
  ∧ (∀ b, predictors (TogglePredictor ps b) = predictors ps)
  ∧ (∀ n, predictors (SetThreads ps n) = predictors ps)
  ∧ (∀ t, predictors (SetTimeout ps t) = predictors ps).
Proof.
  intros Hc. split_and!; try done; [| apply apply_op_prefix].
  induction Hc as [h t n | ps o _ IH]; [done |].
  etrans; [exact IH | apply apply_op_prefix].
Qed.

(** X15. The setters are independent of each other and of registration:
    they commute pairwise, a setter called twice keeps the last value, and
    registering a predictor commutes with each of them. *)
Theorem setters_commute (ps : PortScanner) (b b' : bool) (n n' : Z)
    (t t' : Duration) (p : Predictor) :
  TogglePredictor (SetThreads ps n) b = SetThreads (TogglePredictor ps b) n
  ∧ TogglePredictor (SetTimeout ps t) b = SetTimeout (TogglePredictor ps b) t
  ∧ SetThreads (SetTimeout ps t) n = SetTimeout (SetThreads ps n) t
  ∧ TogglePredictor (TogglePredictor ps b) b' = TogglePredictor ps b'
  ∧ SetThreads (SetThreads ps n) n' = SetThreads ps n'
  ∧ SetTimeout (SetTimeout ps t) t' = SetTimeout ps t'
  ∧ RegisterPredictor (TogglePredictor ps b) p = TogglePredictor (RegisterPredictor ps p) b
  ∧ RegisterPredictor (SetThreads ps n) p = SetThreads (RegisterPredictor ps p) n
  ∧ RegisterPredictor (SetTimeout ps t) p = SetTimeout (RegisterPredictor ps p) t.
Proof.
  split_and!; try done;
    unfold RegisterPredictor, RegisterPredictor_call; cbn;
    by destruct (registered (predictors ps) p) as [[] |].
Qed.

(** ** The sweep *)

(** X16. Mutual exclusion: in every state of the sweep at most one worker
    is between [mu.Lock()] and [mu.Unlock()], [mu] is locked exactly when
    there is one, and two workers found there are the same worker. *)
Theorem GetOpenedPorts_mutual_exclusion (ps : PortScanner) (start end_ : Z) (st : state) :
  reachable ps start end_ st →
  (count in_critical (workers st) ≤ 1)%nat
  ∧ (mu st = true ↔ count in_critical (workers st) = 1%nat)
  ∧ ∀ i j p q pc pc',
      workers st !! i = Some (p, pc) → in_critical pc = true →
      workers st !! j = Some (q, pc') → in_critical pc' = true →
      i = j.
Proof.
  intros (_ & _ & _ & Hmu)%sync_ok_reachable.
  assert (count in_critical (workers st) ≤ 1)%nat as Hone
    by (destruct (mu st); cbn in Hmu; lia).
  split_and!.
  - done.
  - destruct (mu st); cbn in Hmu; split; (done || lia).
  - intros i j p q pc pc' Hi Hpc Hj Hpc'. by eapply (count_unique in_critical).
Qed.

(** X17. With a [threads] that is not negative the sweep never panics:
    [wg] counts the workers that have not finished (and the one about to be
    created), so it is never negative and is positive at every
    [wg.Done()]; and [mu] is locked at every [mu.Unlock()]. *)
Theorem GetOpenedPorts_no_panic (ps : PortScanner) (start end_ : Z) (st : state) :
  0 ≤ threads ps →
  reachable ps start end_ st →
  main st ≠ MPanic
  ∧ wg st = Z.of_nat (count running (workers st)) + announced (main st)
  ∧ 0 ≤ wg st
  ∧ (∀ i p b, workers st !! i = Some (p, WDone b) → 0 < wg st)
  ∧ (∀ i p, workers st !! i = Some (p, WUnlock) → mu st = true).
Proof.
  intros Hthreads Hreach.
  pose proof (sync_ok_reachable _ _ _ _ Hreach) as (_ & _ & Hwg & Hmu).
  assert (0 ≤ announced (main st)) as Hann by (by destruct (main st)).
  split_and!.
  - by eapply no_panic.
  - done.
  - lia.
  - intros i p b Hi. pose proof (count_lookup running _ _ _ _ Hi eq_refl). lia.
  - intros i p Hi. pose proof (count_lookup in_critical _ _ _ _ Hi eq_refl).
    destruct (mu st); [done | cbn in Hmu; lia].
Qed.

(** X18. With at least one thread allowed and [end] below the largest
    [int], the sweep terminates: no execution has more than 14 steps per
    port of the range plus 3, no state before the return is stuck, and
    the return can be reached from every state. *)
Theorem GetOpenedPorts_terminates (ps : PortScanner) (start end_ : Z)
    (sched : list choice) (st : state) :
  min_int ≤ start → end_ < max_int → 1 ≤ threads ps →
  exec ps start end_ sched initial = Some st →
  (length sched ≤ 14 * remaining end_ start + 3)%nat
  ∧ ((∃ r, main st = MReturn r) ∨ ∃ c st', next ps start end_ c st = Some st')
  ∧ ∃ sched' st' r, exec ps start end_ sched' st = Some st' ∧ main st' = MReturn r.
Proof.
  intros Hstart Hend Hthreads Hexec.
  assert (reachable ps start end_ st) as Hreach by (by exists sched).
  split_and!.
  - pose proof (schedule_bounded _ _ _ _ _ Hstart Hend Hexec) as Hb.
    unfold steps_left in Hb at 2. cbn in Hb. lia.
  - by apply GetOpenedPorts_progress.
  - by apply GetOpenedPorts_returns.
Qed.

Lemma zero_threads_states ps start end_ st :
  threads ps = 0 → start ≤ end_ →
  reachable ps start end_ st →
  st ∈ [ initial;
         State (MLoop start) [] 0 false 0 [];
         State (MSend start) [] 0 false 0 [] ].
Proof.
  intros Hthreads Hrange Hreach. pattern st. revert st Hreach.
  apply exec_invariant; [by left |].
  intros c st0 st1 _ Hin Hstep. cbn beta in *.
  repeat (apply elem_of_cons in Hin as [-> | Hin]); [| | | by apply elem_of_nil in Hin];
    destruct c as [| i ok | i]; cbn in Hstep; repeat case_match; simplify_eq;
    try lia; set_solver.
Qed.

(** X19. With [threads] equal to 0 and a range that is not empty the
    sweep blocks for ever at its first send: [sem] is unbuffered and no
    worker exists to receive, so no worker is ever created, no port is
    probed and the call never returns. *)
Theorem GetOpenedPorts_zero_threads_blocks (ps : PortScanner) (start end_ : Z) (st : state) :
  threads ps = 0 → start ≤ end_ →
  reachable ps start end_ st →
  workers st = []
  ∧ (∀ r, main st ≠ MReturn r)
  ∧ (main st = MSend start → ∀ c, next ps start end_ c st = None)
  ∧ exec ps start end_ [RunMain; RunMain] initial
      = Some (State (MSend start) [] 0 false 0 []).
Proof.
  intros Hthreads Hrange Hin%zero_threads_states; [| done | done].
  assert (exec ps start end_ [RunMain; RunMain] initial
          = Some (State (MSend start) [] 0 false 0 [])) as Hexec.
  { cbn. rewrite decide_False by lia. cbn. by rewrite decide_True by lia. }
  repeat (apply elem_of_cons in Hin as [-> | Hin]); [| | | by apply elem_of_nil in Hin];
    cbn; split_and!; try done.
  intros _ [| i ok | i]; cbn; [by rewrite decide_False by lia | done | done].
Qed.

(** X20. With [end] the largest [int] the loop test never fails
    ([port++] wraps around), so the call never reaches [wg.Wait()] and
    never returns. *)
Theorem GetOpenedPorts_max_int_never_returns (ps : PortScanner) (start : Z) (st : state) :
  start ≤ max_int →
  reachable ps start max_int st →
  main st ≠ MWait ∧ ∀ r, main st ≠ MReturn r.
Proof.
  intros Hstart Hreach%never_leaves_loop_reachable; [| done].
  unfold never_leaves_loop in Hreach. by destruct (main st).
Qed.

(** X21. When the sweep returns, the workers it created are, in order of
    creation, those of the ports [start], [start + 1], ... up to [end]: each
    port of the range was probed by exactly one worker, and none when
    [start > end]. *)
Theorem GetOpenedPorts_one_worker_per_port (ps : PortScanner) (start end_ : Z)
    (st : state) (r : list Z) :
  in_int start → in_int end_ →
  reachable ps start end_ st →
  main st = MReturn r →
  (workers st).*1 = seqZ start (end_ - start + 1)
  ∧ length (workers st) = Z.to_nat (end_ - start + 1).
Proof.
  intros [Hstart Hstart'] [_ Hend] Hreach Hmain.
  destruct (decide (end_ = max_int)) as [-> | Hne].
  { apply never_leaves_loop_reachable in Hreach; [| done].
    unfold never_leaves_loop in Hreach. by rewrite Hmain in Hreach. }
  apply ports_ok_reachable in Hreach; [| done | lia].
  destruct Hreach as (Hport & Hlen & Hret & _).
  rewrite Hmain in Hret. destruct Hret as (Hall & _ & _).
  assert (length (workers st) = Z.to_nat (end_ - start + 1)) as Hn.
  { destruct (workers st) as [| w ws] eqn:Hws; [cbn in *; lia |].
    assert (w :: ws ≠ []) as Hnil by done. specialize (Hlen Hnil). lia. }
  split; [| done].
  rewrite (ports_in_order start) by done. rewrite Hn.
  destruct (decide (0 ≤ end_ - start + 1)).
  - by rewrite Z2Nat.id by lia.
  - replace (Z.to_nat (end_ - start + 1)) with 0%nat by lia.
    by rewrite !seqZ_nil by lia.
Qed.

(** X22. When the sweep returns it has released everything it took:
    [sem] is empty, [mu] is unlocked, the counter of [wg] is zero and no
    worker is still running. *)
Theorem GetOpenedPorts_releases_everything (ps : PortScanner) (start end_ : Z)
    (st : state) (r : list Z) :
  in_int start → in_int end_ →
  reachable ps start end_ st →
  main st = MReturn r →
  sem st = 0%nat ∧ mu st = false ∧ wg st = 0
  ∧ ∀ i p pc, workers st !! i = Some (p, pc) → ∃ b, pc = WExit b.
Proof.
  intros [Hstart Hstart'] [_ Hend] Hreach Hmain.
  destruct (decide (end_ = max_int)) as [-> | Hne].
  { apply never_leaves_loop_reachable in Hreach; [| done].
    unfold never_leaves_loop in Hreach. by rewrite Hmain in Hreach. }
  pose proof (sync_ok_reachable _ _ _ _ Hreach) as (Hsem & _ & Hwg & Hmu).
  apply ports_ok_reachable in Hreach; [| done | lia].
  destruct Hreach as (_ & _ & Hret & _).
  rewrite Hmain in Hret, Hsem, Hwg. destruct Hret as (_ & _ & Hdone).
  assert (count holds_slot (workers st) ≤ count running (workers st))%nat as Hh
    by (apply count_le; by intros []).
  assert (count in_critical (workers st) ≤ count running (workers st))%nat as Hc
    by (apply count_le; by intros []).
  cbn in Hsem, Hwg. split_and!; try lia.
  - destruct (mu st); [cbn in Hmu; lia | done].
  - intros i p pc Hi. by eapply finished_worker.
Qed.

(** *** One thread at a time *)

Lemma ascending_snoc (l : list Z) (y : Z) :
  ascending l → Forall (λ x, x < y) l → ascending (l ++ [y]).
Proof.
  unfold ascending. induction 1 as [| x l Hl IH Hx]; intros Hall; cbn.
  - by repeat constructor.
  - apply Forall_cons in Hall as [Hxy Hall]. constructor; [by apply IH |].
    apply Forall_app. split; [done | by repeat constructor].
Qed.

Lemma last_holds_update m ws s k g ops m' s' k' g' ops' i p pc pc' :
  last_holds (State m ws s k g ops) →
  ws !! i = Some (p, pc) →
  (holds_slot pc' = true → holds_slot pc = true) →
  last_holds (State m' (<[i := (p, pc')]> ws) s' k' g' ops').
Proof.
  unfold last_holds. cbn. intros Hlast Hi Hmono j q pcq Hj Hq.
  rewrite length_insert. destruct (decide (i = j)) as [<- | Hne].
  - rewrite list_lookup_insert_eq in Hj by (by eapply lookup_lt_Some).
    simplify_eq. by eapply Hlast; [| apply Hmono].
  - rewrite list_lookup_insert_ne in Hj by done. by eapply Hlast.
Qed.

Lemma last_holds_go ws m' s' k' g' ops' p :
  count holds_slot ws = 0%nat →
  last_holds (State m' (ws ++ [(p, WStart)]) s' k' g' ops').
Proof.
  unfold last_holds. cbn. intros Hzero j q pcq Hj Hq. rewrite length_app. cbn.
  apply lookup_app_Some in Hj as [Hj | [Hge Hj]].
  - pose proof (count_zero_lookup holds_slot ws j q pcq Hzero Hj). congruence.
  - apply list_lookup_singleton_Some in Hj as [Hj _]. lia.
Qed.

Lemma last_holds_same m ws s k g ops m' s' k' g' ops' :
  last_holds (State m ws s k g ops) → last_holds (State m' ws s' k' g' ops').
Proof. done. Qed.

Ltac sweep_cases Hstep :=
  unfold next, main_step, worker_step, rendezvous in Hstep;
  repeat (case_match; simplify_eq; try done).

Lemma single_thread_step ps start end_ c st st' :
  threads ps = 1 → min_int ≤ start → end_ < max_int →
  reachable ps start end_ st →
  last_holds st ∧ ascending (openPorts st) →
  next ps start end_ c st = Some st' →
  last_holds st' ∧ ascending (openPorts st').
Proof.
  intros Hthreads Hstart Hend Hreach [Hlast Hasc] Hstep.
  pose proof (sync_ok_reachable _ _ _ _ Hreach) as (Hsem & Hcap & _ & _).
  pose proof (ports_ok_reachable _ _ _ _ Hstart Hend Hreach)
    as (Hport & _ & _ & _ & Hopen & Hstore).
  destruct st as [m ws s k g ops]. cbn in Hsem, Hcap, Hport, Hopen, Hstore, Hasc.
  destruct c as [| i ok | i]; sweep_cases Hstep; cbn [openPorts];
    try (split; [by eapply last_holds_same | done]);
    try (split; [eapply last_holds_update; [done | done | by intros] | done]).
  (* the next worker is created *)
  { split; [| done]. apply last_holds_go. cbn in Hcap. lia. }
  (* the slice is assigned, wherever the main goroutine stands *)
  all: try lia.
  all: split; [eapply last_holds_update; [done | done | by intros] |].
  all: match goal with Hi : _ !! ?i = Some (?p, WStore ?l) |- _ =>
         rename Hi into Hw; pose proof (Hstore _ _ _ Hw) as ->;
         pose proof (Hlast _ _ _ Hw eq_refl) as Hi_last; cbn in Hi_last;
         pose proof (Hport _ _ _ Hw) as Hp
       end.
  all: apply ascending_snoc; [done |]; apply Forall_forall; intros x Hx.
  all: apply Hopen in Hx as (j & pcj & Hj & Happ).
  all: pose proof (Hport _ _ _ Hj) as Hxj; pose proof (lookup_lt_Some _ _ _ Hj) as Hlt.
  all: assert (j ≠ i) by (intros ->; by simplify_eq); lia.
Qed.

Lemma single_thread_reachable ps start end_ st :
  threads ps = 1 → min_int ≤ start → end_ < max_int →
  reachable ps start end_ st →
  last_holds st ∧ ascending (openPorts st).
Proof.
  intros Hthreads Hstart Hend Hreach. pattern st. revert st Hreach.
  apply exec_invariant.
  - split; [by intros i p pc Hi | constructor].
  - intros c st0 st1 Hreach Hinv Hstep. cbn beta in *.
    by eapply single_thread_step.
Qed.

(** X23. With [threads] equal to 1 the probes run one after the other,
    each worker storing its port before the next worker is created, so the
    slice that is returned is in strictly ascending order. *)
Theorem GetOpenedPorts_single_thread_sorted (ps : PortScanner) (start end_ : Z)
    (st : state) (r : list Z) :
  threads ps = 1 →
  in_int start → in_int end_ →
  reachable ps start end_ st →
  main st = MReturn r →
  ascending r.
Proof.
  intros Hthreads [Hstart Hstart'] [_ Hend] Hreach Hmain.
  destruct (decide (end_ = max_int)) as [-> | Hne].
  { apply never_leaves_loop_reachable in Hreach; [| done].
    unfold never_leaves_loop in Hreach. by rewrite Hmain in Hreach. }
  assert (end_ < max_int) as Hend' by lia.
  pose proof (ports_ok_reachable _ _ _ _ Hstart Hend' Hreach) as (_ & _ & Hret & _).
  destruct (single_thread_reachable ps start end_ st Hthreads Hstart Hend' Hreach)
    as [_ Hasc].
  rewrite Hmain in Hret. by destruct Hret as (_ & -> & _).
Qed.

(** *** Two threads or more *)

(** X24. With two threads or more the order of the slice depends on the
    schedule: a sweep over two ports that are both open can return them
    in ascending order and can return them in descending order. *)
Theorem GetOpenedPorts_order_depends_on_schedule (ps : PortScanner) (start : Z) :
  2 ≤ threads ps → min_int ≤ start → start + 1 < max_int →
  (∃ st, exec ps start (start + 1) Example.two_ports_in_order initial = Some st
         ∧ main st = MReturn [start; start + 1])
  ∧ (∃ st, exec ps start (start + 1) Example.two_ports_reversed initial = Some st
           ∧ main st = MReturn [start + 1; start]).
Proof.
  intros Hthreads Hstart Hend.
  assert (wrap_int (start + 1) = start + 1) as Hw1
    by (apply wrap_int_id; unfold in_int; lia).
  assert (wrap_int (start + 1 + 1) = start + 1 + 1) as Hw2
    by (apply wrap_int_id; unfold in_int; lia).
  split; eexists; split.
  1, 3:
    cbn [Example.two_ports_in_order Example.two_ports_reversed Example.create_two_workers
         Example.run_worker replicate app];
    unfold initial;
    repeat (cbn -[decide wrap_int Z.add Z.sub Z.of_nat];
            rewrite ?Hw1, ?Hw2;
            first [ rewrite decide_True by (cbn; lia)
                  | rewrite decide_False by (cbn; lia) ]);
    reflexivity.
  all: reflexivity.
Qed.

End Further.

(** * The properties on the concrete environment *)

Module Checks.

Import Example.

(** C3.  The scanner reads the greeting of a server that sends the five
    bytes ["5.7.1"] and nothing more; the read succeeds.  The label ends in
    the whole 20-byte buffer, the five bytes and fifteen zero bytes, and so
    differs from the guess followed by [" version: "] and the bytes read. *)
Theorem getMySQLVersion_appends_whole_buffer :
  let o := run (network short_greeting) (DescribePort scanner 3306) 0%nat in
  result_of o = "MySQL version: 5.7.1" +:+ string_of_bytes (replicate 15 zero_byte)
  ∧ len (result_of o) = 35%nat
  ∧ len (mysql_label_spec "MySQL" (bytes_of "5.7.1")) = 20%nat
  ∧ result_of o ≠ mysql_label_spec "MySQL" (bytes_of "5.7.1").
Proof.
  cbn zeta. split_and!; [by vm_compute | by vm_compute | by vm_compute |].
  vm_compute. discriminate.
Qed.

Lemma DescribePort_predictor_off_witness :
  usePredictor (TogglePredictor scanner false) = false
  ∧ DescribePort (TogglePredictor scanner false) 3306 = Ret (predictPort 3306)
  ∧ ∀ (W : Type) (h : handler W) (w : W),
      run h (DescribePort (TogglePredictor scanner false) 3306) w = (predictPort 3306, w, []).
Proof.
  split; [reflexivity |].
  apply (DescribePort_predictor_off (TogglePredictor scanner false) 3306). reflexivity.
Defined.

(** C2, as stated, fails: with the predictor switched off, port 80 is
    described by its table entry and no predictor is asked, although the
    chain would have answered ["nginx"]. *)
Lemma DescribePort_http_port_predictor_off :
  let ps := TogglePredictor scanner false in
  run (network nginx_server) (DescribePort ps 80) 0%nat = ("HTTP", 0%nat, [])
  ∧ result_of (run (network nginx_server) (PredictUsingPredictor ps (hostPort ps 80)) 0%nat)
    = "nginx".
Proof. cbn zeta. split; by vm_compute. Qed.

Lemma DescribePort_http_port_witness :
  usePredictor scanner = true
  ∧ (8080 = 80 ∨ 8080 = 8080)
  ∧ DescribePort scanner 8080 = PredictUsingPredictor scanner (hostPort scanner 8080)
  ∧ (∀ (W : Type) (h : handler W) (w : W),
       let o := run h (DescribePort scanner 8080) w in
       (result_of o, predict_calls (trace_of o)) =
         chain_spec h scanner (hostPort scanner 8080) (predictors scanner) w)
  ∧ (∀ q, IsHttp q = true ↔ q = 80 ∨ q = 8080).
Proof.
  split; [reflexivity |]. split; [right; reflexivity |].
  apply (DescribePort_http_port scanner 8080); [reflexivity | right; reflexivity].
Defined.

Lemma DescribePort_unknown_port_witness :
  usePredictor scanner = true
  ∧ IsHttp 9999 = false
  ∧ predictPort 9999 = UNKNOWN
  ∧ ∀ (W : Type) (h : handler W) (w : W),
      run h (DescribePort scanner 9999) w
        = run h (PredictUsingPredictor scanner (hostPort scanner 9999)) w
      ∧ let o := run h (DescribePort scanner 9999) w in
        (result_of o, predict_calls (trace_of o)) =
          chain_spec h scanner (hostPort scanner 9999) (predictors scanner) w.
Proof.
  split; [reflexivity |]. split; [reflexivity |]. split; [vm_compute; reflexivity |].
  apply (DescribePort_unknown_port scanner 9999);
    [reflexivity | reflexivity | vm_compute; reflexivity].
Defined.

(** C9, as stated, fails: [SetThreads(0)] on a scanner built with two
    threads leaves a limit below 1, and so does a constructor called
    with 0. *)
Lemma SetThreads_breaks_limit :
  limit_positive scanner
  ∧ constructed (apply_op scanner (OpSetThreads 0))
  ∧ ¬ limit_positive (apply_op scanner (OpSetThreads 0))
  ∧ ¬ limit_positive (NewPortScanner (H := packages) "localhost" Second 0).
Proof.
  split_and!.
  - unfold limit_positive. cbn. lia.
  - apply constructed_op. apply (constructed_new (H := packages)).
  - unfold limit_positive. cbn. lia.
  - unfold limit_positive. cbn. lia.
Qed.

(** The state in which [GetOpenedPorts(80, 80)] has returned [[80]]. *)
Lemma one_open_one_refused_returned :
  exec scanner 80 81 one_open_one_refused initial
    = Some (State (MReturn [81]) [(80, WExit false); (81, WExit true)] 0 false 0 [81]).
Proof. vm_compute. reflexivity. Defined.

Lemma GetOpenedPorts_result_witness :
  let st := State (MReturn [81]) [(80, WExit false); (81, WExit true)] 0 false 0 [81] in
  let log := dials scanner 80 81 one_open_one_refused initial in
  in_int 80 ∧ in_int 81
  ∧ exec scanner 80 81 one_open_one_refused initial = Some st
  ∧ log = [(81, true); (80, false)]
  ∧ ((∀ p, p ∈ [81] → 80 ≤ p ≤ 81)
     ∧ NoDup [81]
     ∧ log.*1 ≡ₚ seqZ 80 (81 - 80 + 1)
     ∧ (∀ p, p ∈ [81] ↔ (p, true) ∈ log)
     ∧ (∀ p, 80 ≤ p ≤ 81 → p ∉ [81] → (p, false) ∈ log)
     ∧ (∀ p, 80 ≤ p ≤ 81 → ∃ i b, workers st !! i = Some (p, WExit b))
     ∧ (∀ i p pc, workers st !! i = Some (p, pc) → probed pc = true ∧ 80 ≤ p ≤ 81)
     ∧ (∀ p, p ∈ [81] ↔ ∃ i, workers st !! i = Some (p, WExit true)))
  ∧ 1 ≤ threads scanner ∧ 81 < max_int
  ∧ (length one_open_one_refused ≤ steps_left 80 81 initial)%nat
  ∧ ∃ sched' st' r, exec scanner 80 81 sched' st = Some st' ∧ main st' = MReturn r.
Proof.
  cbn zeta.
  assert (in_int 80) as Hstart by (unfold in_int, min_int, max_int; lia).
  assert (in_int 81) as Hend by (unfold in_int, min_int, max_int; lia).
  assert (1 ≤ threads scanner) as Hthreads by (cbn; lia).
  assert (81 < max_int) as Hlast by (unfold max_int; lia).
  destruct (GetOpenedPorts_result scanner 80 81 Hstart Hend) as [Hresult Hreturns].
  destruct (Hreturns Hthreads Hlast _ _ one_open_one_refused_returned)
    as (Hbound & _ & Hrun).
  split; [exact Hstart |]. split; [exact Hend |].
  split; [exact one_open_one_refused_returned |].
  split; [vm_compute; reflexivity |].
  split; [exact (Hresult _ _ [81] one_open_one_refused_returned eq_refl) |].
  split; [exact Hthreads |]. split; [exact Hlast |].
  split; [exact Hbound | exact Hrun].
Defined.

Lemma GetOpenedPorts_bounded_witness :
  let st := State (MLoop 82) [(80, WDial); (81, WDial)] 2 false 2 [] in
  reachable scanner 80 81 st
  ∧ in_flight st = 2%nat
  ∧ (in_flight st ≤ slots_taken st)%nat
  ∧ (slots_taken st ≤ Z.to_nat (threads scanner))%nat.
Proof.
  cbn zeta.
  assert (reachable scanner 80 81 (State (MLoop 82) [(80, WDial); (81, WDial)] 2 false 2 []))
    as Hreach by (exists two_probes_schedule; vm_compute; reflexivity).
  split; [exact Hreach |]. split; [reflexivity |].
  pose proof (GetOpenedPorts_bounded scanner 80 81 _ Hreach) as (Hin & Hslots & _).
  split; [exact Hin | exact Hslots].
Defined.

(** C10, as stated, fails: on a scanner whose [threads] is -1 the call
    panics at [make] and never returns. *)
Lemma GetOpenedPorts_negative_threads_panics :
  let ps := SetThreads scanner (-1) in
  exec ps 5 3 [RunMain] initial = Some (State MPanic [] 0 false 0 [])
  ∧ ¬ ∃ st r, reachable ps 5 3 st ∧ main st = MReturn r.
Proof.
  cbn zeta. split; [by vm_compute |].
  intros (st & r & Hreach & Hmain).
  apply negative_threads_states in Hreach as [-> | ->]; [done | done | cbn; lia].
Qed.

Lemma GetOpenedPorts_empty_range_witness :
  0 ≤ threads scanner ∧ 3 < 5
  ∧ exec scanner 5 3 [RunMain; RunMain; RunMain] initial
    = Some (State (MReturn []) [] 0 false 0 [])
  ∧ ∀ st, reachable scanner 5 3 st →
      workers st = [] ∧ in_flight st = 0%nat ∧ openPorts st = []
      ∧ (∀ r, main st = MReturn r → r = [])
      ∧ ((∃ r, main st = MReturn r)
         ∨ ∃ st', next scanner 5 3 RunMain st = Some st').
Proof.
  assert (0 ≤ threads scanner) as Hthreads by (cbn; lia).
  assert (3 < 5) as Hempty by lia.
  split; [exact Hthreads |]. split; [exact Hempty |].
  exact (GetOpenedPorts_empty_range scanner 5 3 Hthreads Hempty).
Defined.

Lemma RegisterPredictor_witness :
  let ps := RegisterPredictor scanner (Custom 7) in
  registered (predictors scanner) (Custom 7) = Some false
  ∧ equal (Custom 7) (Custom 7) = Some true
  ∧ RegisterPredictor_call scanner (Custom 7) = Some ps
  ∧ predictors ps = [Apache; Nginx; Custom 7]
  ∧ RegisterPredictor ps (Custom 7) = ps
  ∧ RegisterPredictor_call ps (Custom 7) = Some ps
  ∧ RegisterPredictor ps Nginx = ps
  ∧ NoDup (predictors ps)
  ∧ length (filter (λ q, q = Custom 7) (predictors ps)) = 1%nat.
Proof.
  cbn zeta.
  assert (registered (predictors scanner) (Custom 7) = Some false) as Hnew
    by reflexivity.
  assert (equal (Custom 7) (Custom 7) = Some true) as Hself by reflexivity.
  assert (equal Nginx Nginx = Some true) as Hnginx by reflexivity.
  assert (NoDup (predictors scanner)) as Hnd.
  { apply (bool_decide_unpack _). vm_compute. reflexivity. }
  pose proof (RegisterPredictor_idempotent_append_only scanner (Custom 7))
    as (_ & Happend & _ & _ & Hequal).
  destruct (Happend Hnew) as (Hcall & Hlist & _).
  destruct (Hequal Hself) as (_ & Htwice & Hreturns & Hkeeps & Honce).
  pose proof (RegisterPredictor_idempotent_append_only
                (RegisterPredictor scanner (Custom 7)) Nginx)
    as (_ & _ & _ & _ & Hequal').
  destruct (Hequal' Hnginx) as (Hmember & _).
  split_and!.
  - exact Hnew.
  - exact Hself.
  - exact Hcall.
  - exact Hlist.
  - exact Htwice.
  - apply Hreturns. by rewrite Hnew.
  - apply Hmember. rewrite Hlist. cbn. apply elem_of_cons. right.
    apply elem_of_cons. by left.
  - by apply Hkeeps.
  - apply Honce; [exact Hnd | by left].
Defined.

(** A predictor that is not [==] to itself is appended again by a second
    registration, and one of a type that cannot be compared makes the
    second registration panic. *)
Lemma RegisterPredictor_registers_twice :
  let p := Scored None in
  let ps := RegisterPredictor scanner p in
  p ∈ predictors ps
  ∧ RegisterPredictor_call ps p = Some (RegisterPredictor ps p)
  ∧ predictors (RegisterPredictor ps p) = [Apache; Nginx; p; p]
  ∧ RegisterPredictor ps p ≠ ps
  ∧ length (filter (λ q, q = p) (predictors (RegisterPredictor ps p))) = 2%nat
  ∧ RegisterPredictor_call scanner (Rules ["nginx"])
    = Some (RegisterPredictor scanner (Rules ["nginx"]))
  ∧ RegisterPredictor_call (RegisterPredictor scanner (Rules ["nginx"])) (Rules ["nginx"])
    = None.
Proof.
  cbn zeta. split_and!; try reflexivity.
  - apply elem_of_app. right. by apply list_elem_of_singleton.
  - discriminate.
Qed.

End Checks.

(** * The further properties on the concrete environment *)

Module FurtherChecks.

Import Example.

Lemma refusing_unreachable (hostport : string) :
  unreachable (network refusing) scanner hostport.
Proof. intros w. by eexists. Qed.

Lemma PredictUsingPredictor_unreachable_witness :
  let evs := events (network refusing) (PredictUsingPredictor scanner "localhost:9999") 0%nat in
  unreachable (network refusing) scanner "localhost:9999"
  ∧ result_of (run (network refusing) (PredictUsingPredictor scanner "localhost:9999") 0%nat)
    = UNKNOWN
  ∧ predictors_asked evs = []
  ∧ opened evs = []
  ∧ closed evs = []
  ∧ length (resolved evs) = length (predictors scanner).
Proof.
  split; [apply refusing_unreachable |].
  apply (PredictUsingPredictor_unreachable (network refusing) scanner "localhost:9999" 0%nat).
  apply refusing_unreachable.
Defined.

Lemma DescribePort_known_port_witness :
  usePredictor scanner = true
  ∧ IsHttp 22 = false
  ∧ predictPort 22 ≠ UNKNOWN
  ∧ predictPort 22 ≠ "MySQL"
  ∧ ∀ (W : Type) (h : handler W) (w : W),
      run h (DescribePort scanner 22) w = (predictPort 22, w, [])
      ∧ events h (DescribePort scanner 22) w = [].
Proof.
  assert (predictPort 22 ≠ UNKNOWN) as Hun by (vm_compute; discriminate).
  assert (predictPort 22 ≠ "MySQL") as Hmy by (vm_compute; discriminate).
  split; [reflexivity |]. split; [reflexivity |]. split; [exact Hun |]. split; [exact Hmy |].
  exact (DescribePort_known_port scanner 22 eq_refl eq_refl Hun Hmy).
Defined.

Lemma DescribePort_reads_only_3306_witness :
  80 ≠ 3306
  ∧ omap read_outcome (events (network nginx_server) (DescribePort scanner 80) 0%nat) = [].
Proof.
  assert (80 ≠ 3306) as Hne by lia.
  split; [exact Hne |].
  exact (DescribePort_reads_only_3306 (network nginx_server) scanner 80 0%nat Hne).
Defined.

Lemma hostPort_injective_witness :
  80 ≠ 8080 ∧ hostPort scanner 80 ≠ hostPort scanner 8080.
Proof.
  assert (80 ≠ 8080) as Hne by lia.
  split; [exact Hne |]. exact (hostPort_injective scanner 80 8080 Hne).
Defined.

Lemma registered_scanner_constructed :
  constructed (RegisterPredictor scanner (Custom 7)).
Proof.
  apply (constructed_op (H := packages) scanner (OpRegisterPredictor (H := packages) (Custom 7))).
  apply (constructed_new (H := packages)).
Qed.

Lemma default_predictors_stay_first_witness :
  let ps := RegisterPredictor scanner (Custom 7) in
  constructed ps
  ∧ [Apache; Nginx] `prefix_of` predictors ps
  ∧ (∀ o, predictors ps `prefix_of` predictors (apply_op ps o)).
Proof.
  cbn zeta. split; [exact registered_scanner_constructed |].
  pose proof (default_predictors_stay_first (RegisterPredictor scanner (Custom 7))
                registered_scanner_constructed) as (Hfirst & Hgrow & _).
  split; [exact Hfirst | exact Hgrow].
Defined.

Lemma holding_mu_reached :
  exec scanner 80 80 holding_mu_schedule initial
    = Some (State (MLoop 81) [(80, WLocked)] 1 true 1 []).
Proof. vm_compute. reflexivity. Qed.

Lemma GetOpenedPorts_mutual_exclusion_witness :
  let st := State (MLoop 81) [(80, WLocked)] 1 true 1 [] in
  reachable scanner 80 80 st
  ∧ (count in_critical (workers st) ≤ 1)%nat
  ∧ (mu st = true ↔ count in_critical (workers st) = 1%nat).
Proof.
  cbn zeta.
  assert (reachable scanner 80 80 (State (MLoop 81) [(80, WLocked)] 1 true 1 []))
    as Hreach by (exists holding_mu_schedule; exact holding_mu_reached).
  split; [exact Hreach |].
  pose proof (GetOpenedPorts_mutual_exclusion scanner 80 80 _ Hreach) as (Hone & Hmu & _).
  split; [exact Hone | exact Hmu].
Defined.

Lemma GetOpenedPorts_no_panic_witness :
  let st := State (MLoop 81) [(80, WLocked)] 1 true 1 [] in
  0 ≤ threads scanner
  ∧ reachable scanner 80 80 st
  ∧ main st ≠ MPanic
  ∧ 0 ≤ wg st.
Proof.
  cbn zeta.
  assert (0 ≤ threads scanner) as Hthreads by (cbn; lia).
  assert (reachable scanner 80 80 (State (MLoop 81) [(80, WLocked)] 1 true 1 []))
    as Hreach by (exists holding_mu_schedule; exact holding_mu_reached).
  split; [exact Hthreads |]. split; [exact Hreach |].
  pose proof (GetOpenedPorts_no_panic scanner 80 80 _ Hthreads Hreach) as (Hm & _ & Hwg & _).
  split; [exact Hm | exact Hwg].
Defined.

Lemma GetOpenedPorts_terminates_witness :
  let st := State (MLoop 81) [(80, WLocked)] 1 true 1 [] in
  min_int ≤ 80 ∧ 80 < max_int ∧ 1 ≤ threads scanner
  ∧ exec scanner 80 80 holding_mu_schedule initial = Some st
  ∧ (length holding_mu_schedule ≤ 14 * remaining 80 80 + 3)%nat
  ∧ ∃ sched' st' r, exec scanner 80 80 sched' st = Some st' ∧ main st' = MReturn r.
Proof.
  cbn zeta.
  assert (min_int ≤ 80) as Hstart by (unfold min_int; lia).
  assert (80 < max_int) as Hend by (unfold max_int; lia).
  assert (1 ≤ threads scanner) as Hthreads by (cbn; lia).
  split; [exact Hstart |]. split; [exact Hend |]. split; [exact Hthreads |].
  split; [exact holding_mu_reached |].
  pose proof (GetOpenedPorts_terminates scanner 80 80 holding_mu_schedule _
                Hstart Hend Hthreads holding_mu_reached) as (Hlen & _ & Hret).
  split; [exact Hlen | exact Hret].
Defined.

Lemma GetOpenedPorts_zero_threads_blocks_witness :
  let ps := SetThreads scanner 0 in
  let st := State (MSend 80) [] 0 false 0 [] in
  threads ps = 0 ∧ 80 ≤ 81
  ∧ reachable ps 80 81 st
  ∧ workers st = []
  ∧ (∀ r, main st ≠ MReturn r)
  ∧ (main st = MSend 80 → ∀ c, next ps 80 81 c st = None).
Proof.
  cbn zeta.
  assert (80 ≤ 81) as Hrange by lia.
  assert (reachable (SetThreads scanner 0) 80 81 (State (MSend 80) [] 0 false 0 []))
    as Hreach by (exists [RunMain; RunMain]; vm_compute; reflexivity).
  split; [reflexivity |]. split; [exact Hrange |]. split; [exact Hreach |].
  pose proof (GetOpenedPorts_zero_threads_blocks (SetThreads scanner 0) 80 81 _
                eq_refl Hrange Hreach) as (Hws & Hret & Hstuck & _).
  split; [exact Hws |]. split; [exact Hret | exact Hstuck].
Defined.

Lemma GetOpenedPorts_max_int_never_returns_witness :
  80 ≤ max_int
  ∧ reachable scanner 80 max_int (State (MSend 80) [] 0 false 0 [])
  ∧ main (State (MSend 80) [] 0 false 0 []) ≠ MWait
  ∧ ∀ r, main (State (MSend 80) [] 0 false 0 []) ≠ MReturn r.
Proof.
  assert (80 ≤ max_int) as Hstart by (unfold max_int; lia).
  assert (reachable scanner 80 max_int (State (MSend 80) [] 0 false 0 []))
    as Hreach by (exists [RunMain; RunMain]; vm_compute; reflexivity).
  split; [exact Hstart |]. split; [exact Hreach |].
  exact (GetOpenedPorts_max_int_never_returns scanner 80 _ Hstart Hreach).
Defined.

Lemma one_port_returned :
  exec scanner 80 80 one_port_schedule initial
    = Some (State (MReturn [80]) [(80, WExit true)] 0 false 0 [80]).
Proof. vm_compute. reflexivity. Qed.

Lemma GetOpenedPorts_one_worker_per_port_witness :
  let st := State (MReturn [80]) [(80, WExit true)] 0 false 0 [80] in
  in_int 80 ∧ reachable scanner 80 80 st ∧ main st = MReturn [80]
  ∧ (workers st).*1 = seqZ 80 (80 - 80 + 1)
  ∧ length (workers st) = Z.to_nat (80 - 80 + 1).
Proof.
  cbn zeta.
  assert (in_int 80) as Hint by (unfold in_int, min_int, max_int; lia).
  assert (reachable scanner 80 80 (State (MReturn [80]) [(80, WExit true)] 0 false 0 [80]))
    as Hreach by (exists one_port_schedule; exact one_port_returned).
  split; [exact Hint |]. split; [exact Hreach |]. split; [reflexivity |].
  exact (GetOpenedPorts_one_worker_per_port scanner 80 80 _ [80] Hint Hint Hreach eq_refl).
Defined.

Lemma GetOpenedPorts_releases_everything_witness :
  let st := State (MReturn [80]) [(80, WExit true)] 0 false 0 [80] in
  in_int 80 ∧ reachable scanner 80 80 st ∧ main st = MReturn [80]
  ∧ sem st = 0%nat ∧ mu st = false ∧ wg st = 0
  ∧ ∀ i p pc, workers st !! i = Some (p, pc) → ∃ b, pc = WExit b.
Proof.
  cbn zeta.
  assert (in_int 80) as Hint by (unfold in_int, min_int, max_int; lia).
  assert (reachable scanner 80 80 (State (MReturn [80]) [(80, WExit true)] 0 false 0 [80]))
    as Hreach by (exists one_port_schedule; exact one_port_returned).
  split; [exact Hint |]. split; [exact Hreach |]. split; [reflexivity |].
  exact (GetOpenedPorts_releases_everything scanner 80 80 _ [80] Hint Hint Hreach eq_refl).
Defined.

Lemma one_at_a_time_returned :
  exec (SetThreads scanner 1) 80 81 one_at_a_time initial
    = Some (State (MReturn [80; 81]) [(80, WExit true); (81, WExit true)] 0 false 0 [80; 81]).
Proof. vm_compute. reflexivity. Qed.

Lemma GetOpenedPorts_single_thread_sorted_witness :
  let ps := SetThreads scanner 1 in
  let st := State (MReturn [80; 81]) [(80, WExit true); (81, WExit true)] 0 false 0 [80; 81] in
  threads ps = 1 ∧ in_int 80 ∧ in_int 81
  ∧ reachable ps 80 81 st ∧ main st = MReturn [80; 81]
  ∧ ascending [80; 81].
Proof.
  cbn zeta.
  assert (in_int 80) as Hs by (unfold in_int, min_int, max_int; lia).
  assert (in_int 81) as He by (unfold in_int, min_int, max_int; lia).
  assert (reachable (SetThreads scanner 1) 80 81
            (State (MReturn [80; 81]) [(80, WExit true); (81, WExit true)] 0 false 0 [80; 81]))
    as Hreach by (exists one_at_a_time; exact one_at_a_time_returned).
  split; [reflexivity |]. split; [exact Hs |]. split; [exact He |].
  split; [exact Hreach |]. split; [reflexivity |].
  exact (GetOpenedPorts_single_thread_sorted (SetThreads scanner 1) 80 81 _ [80; 81]
           eq_refl Hs He Hreach eq_refl).
Defined.

Lemma GetOpenedPorts_order_depends_on_schedule_witness :
  2 ≤ threads scanner ∧ min_int ≤ 80 ∧ 80 + 1 < max_int
  ∧ (∃ st, exec scanner 80 (80 + 1) two_ports_in_order initial = Some st
           ∧ main st = MReturn [80; 80 + 1])
  ∧ (∃ st, exec scanner 80 (80 + 1) two_ports_reversed initial = Some st
           ∧ main st = MReturn [80 + 1; 80]).
Proof.
  assert (2 ≤ threads scanner) as Hthreads by (cbn; lia).
  assert (min_int ≤ 80) as Hstart by (unfold min_int; lia).
  assert (80 + 1 < max_int) as Hend by (unfold max_int; lia).
  split; [exact Hthreads |]. split; [exact Hstart |]. split; [exact Hend |].
  exact (GetOpenedPorts_order_depends_on_schedule scanner 80 Hthreads Hstart Hend).
Defined.

End FurtherChecks.
